(** * Layout geometry of the chart builders

    A shallow embedding of the geometric cores of the chart builders:
    - [Treemap]  : [_squarify] of scripts/treemap/builder.py,
    - [Sankey]   : the flow sums and ribbon loop of scripts/sankey/builder.py,
    - [Flow]     : [_auto_lanes] of scripts/flow/builder.py,
    - [Sunburst] : [_layout] of charts/sunburst/builder.py,
    - [Funnel]   : the width computation of charts/funnel/builder.py.

    Numbers.  The builders compute with IEEE doubles.  Here a finite double
    is idealised as an exact rational ([Q], compared with [==]): rounding is
    not modelled, so an equation that the program satisfies "within floating
    tolerance" is stated exactly.  Where a statement depends on what a division
    by zero does, the module says how it is modelled: a Python float
    division raises [ZeroDivisionError] ([Sankey]); a numpy division yields
    an infinity or a NaN and goes on ([Funnel], which carries them
    explicitly).  In [Treemap] and [Sunburst] the statements that evaluate a
    quotient are made where its divisor is not zero; the others (how many
    rectangles are returned, which orientation a row gets, which keys are
    written) do not depend on the value of any quotient. *)

From stdpp Require Import gmap strings list sorting.
From Stdlib Require Import QArith Qminmax Lqa Lia.

Open Scope Q_scope.

(** ** Python exceptions

    A call either returns a value or raises.  Only the exceptions the
    modelled code can raise are listed. *)
Inductive exn :=
| ValueError (msg : string)
| KeyError (key : string)
| IndexError
| ZeroDivisionError.

Inductive result (A : Type) :=
| Ok (a : A)
| Raise (e : exn).
Arguments Ok {A} a.
Arguments Raise {A} e.

#[global] Instance result_bind : MBind result :=
  fun A B f r => match r with Ok a => f a | Raise e => Raise e end.

(** [d[k]] on a dict with string keys. *)
Definition getitem {A : Type} (d : gmap string A) (k : string) : result A :=
  match d !! k with
  | Some v => Ok v
  | None => Raise (KeyError k)
  end.

(** [require(cond, msg)] of the validators. *)
Definition require (cond : bool) (msg : string) : result unit :=
  if cond then Ok tt else Raise (ValueError msg).

(** ** Rational helpers shared by the modules *)

(** Python's [a < b] on numbers. *)
Definition Qlt_bool (a b : Q) : bool := negb (Qle_bool b a).

(** A positive value. *)
Definition pos (v : Q) : Prop := 0 < v.

(** Python's [sum(l)]: a left fold that starts at [0]. *)
Definition sumQ (l : list Q) : Q := fold_left Qplus l 0.

(** Python's [max(l)] and [min(l)] on a non-empty list: the running
    extremum starts at the first item and is replaced by a strictly
    larger (smaller) one.  On the empty list Python raises; the callers
    below never pass it (the value [0] is a placeholder). *)
Definition list_max (l : list Q) : Q :=
  match l with
  | [] => 0
  | a :: l' => fold_left Qmax l' a
  end.

Definition list_min (l : list Q) : Q :=
  match l with
  | [] => 0
  | a :: l' => fold_left Qmin l' a
  end.

(** [v] is a greatest (least) value of [row]. *)
Definition is_max (row : list Q) (v : Q) : Prop :=
  Exists (fun u => u == v) row /\ Forall (fun u => u <= v) row.

Definition is_min (row : list Q) (v : Q) : Prop :=
  Exists (fun u => u == v) row /\ Forall (fun u => v <= u) row.

(** * Squarified treemap: scripts/treemap/builder.py *)
Module Treemap.

(** A rectangle [(x, y, w, h)], the tuple the builder appends to [rects]
    and the 4-tuple [cur_x, cur_y, cur_w, cur_h] of the remaining area. *)
Record Rect := mkRect { rx : Q; ry : Q; rw : Q; rh : Q }.

(** The value of [worst_ratio]: [float('inf')] for the empty row. *)
Inductive ratio := Inf | Fin (q : Q).

(** [a <= b] on such values. *)
Definition ratio_le (a b : ratio) : bool :=
  match a, b with
  | _, Inf => true
  | Inf, Fin _ => false
  | Fin p, Fin q => Qle_bool p q
  end.

(** [worst_ratio(row, W)]:
    [max((W**2)*m/(s**2), (s**2)/(W**2*n))] with [s], [m], [n] the sum,
    maximum and minimum of the row. *)
Definition worst_ratio (row : list Q) (W : Q) : ratio :=
  match row with
  | [] => Inf
  | _ :: _ =>
      let s := sumQ row in
      let m := list_max row in
      let n := list_min row in
      Fin (Qmax ((W ^ 2) * m / (s ^ 2)) ((s ^ 2) / (W ^ 2 * n)))
  end.

(** The rectangles one call of [layout] appends, horizontal branch: the
    row's items side by side from [xx], all of height [hh]. *)
Fixpoint strip_h (row : list Q) (xx y hh padding : Q) : list Rect :=
  match row with
  | [] => []
  | r :: row' =>
      let ww := r / hh in
      mkRect (xx + padding) (y + padding) (ww - 2 * padding) (hh - 2 * padding)
        :: strip_h row' (xx + ww) y hh padding
  end.

(** Vertical branch: the items stacked from [yy], all of width [ww]. *)
Fixpoint strip_v (row : list Q) (x yy ww padding : Q) : list Rect :=
  match row with
  | [] => []
  | r :: row' =>
      let hh := r / ww in
      mkRect (x + padding) (yy + padding) (ww - 2 * padding) (hh - 2 * padding)
        :: strip_v row' x (yy + hh) ww padding
  end.

(** [layout(row, x, y, W, H, horizontal)]: returns the remaining
    rectangle and the list [rects] after the appends. *)
Definition layout (row : list Q) (cur : Rect) (horizontal : bool)
    (padding : Q) (rects : list Rect) : Rect * list Rect :=
  let s := sumQ row in
  if horizontal then
    let hh := s / rw cur in
    (mkRect (rx cur) (ry cur + hh) (rw cur) (rh cur - hh),
     rects ++ strip_h row (rx cur) (ry cur) hh padding)
  else
    let ww := s / rh cur in
    (mkRect (rx cur + ww) (ry cur) (rw cur - ww) (rh cur),
     rects ++ strip_v row (rx cur) (ry cur) ww padding).

(** One entry per call of [layout]: the row that was closed, the
    remaining rectangle it was laid out in and the orientation flag.
    The program keeps no such record; the model carries it beside
    [rects] to state which orientation each closed row got. *)
Record closed_row := mkClosed
  { cl_row : list Q; cl_cur : Rect; cl_horizontal : bool }.

(** The [while i < len(vals)] loop and the final flush.  [vals] holds
    the values from index [i] on.  An iteration that accepts [v] moves
    on to the rest.  An iteration that rejects [v] closes the row and
    leaves [i] alone; the iteration after it finds [row] empty, so it
    appends that same [v]: the two are one step here. *)
Fixpoint squarify_loop (vals row : list Q) (cur : Rect) (horizontal : bool)
    (padding : Q) (rects : list Rect) (log : list closed_row)
    : list Rect * list closed_row :=
  match vals with
  | [] =>
      match row with
      | [] => (rects, log)
      | _ :: _ =>
          (snd (layout row cur horizontal padding rects),
           log ++ [mkClosed row cur horizontal])
      end
  | v :: vals' =>
      let W := Qmin (rw cur) (rh cur) in
      if match row with [] => true | _ :: _ => false end
         || ratio_le (worst_ratio (row ++ [v]) W) (worst_ratio row W)
      then squarify_loop vals' (row ++ [v]) cur horizontal padding rects log
      else
        let '(cur', rects') := layout row cur horizontal padding rects in
        squarify_loop vals' [v] cur' (negb horizontal) padding rects'
          (log ++ [mkClosed row cur horizontal])
  end.

(** The same loop iteration by iteration, with the index [i] of the
    program and a bound on the number of iterations: [None] when the
    bound is used up.  [squarify_while_fused] below shows that it
    returns what [squarify_loop] returns. *)
Fixpoint squarify_while (fuel : nat) (vals : list Q) (i : nat)
    (row : list Q) (cur : Rect) (horizontal : bool) (padding : Q)
    (rects : list Rect) (log : list closed_row)
    : option (list Rect * list closed_row) :=
  match fuel with
  | O => None
  | S fuel' =>
      match vals !! i with
      | Some v =>
          let W := Qmin (rw cur) (rh cur) in
          if match row with [] => true | _ :: _ => false end
             || ratio_le (worst_ratio (row ++ [v]) W) (worst_ratio row W)
          then squarify_while fuel' vals (S i) (row ++ [v]) cur horizontal
                 padding rects log
          else
            let '(cur', rects') := layout row cur horizontal padding rects in
            squarify_while fuel' vals i [] cur' (negb horizontal) padding
              rects' (log ++ [mkClosed row cur horizontal])
      | None =>
          match row with
          | [] => Some (rects, log)
          | _ :: _ =>
              Some (snd (layout row cur horizontal padding rects),
                    log ++ [mkClosed row cur horizontal])
          end
      end
  end.

(** [vals / vals.sum() * (w*h)]. *)
Definition normalize (values : list Q) (w h : Q) : list Q :=
  let total := sumQ values in
  map (fun v => v / total * (w * h)) values.

Definition squarify_run (values : list Q) (x y w h padding : Q)
    : list Rect * list closed_row :=
  squarify_loop (normalize values w h) [] (mkRect x y w h) true padding [] [].

(** [_squarify(values, x, y, w, h, padding)]. *)
Definition _squarify (values : list Q) (x y w h padding : Q) : list Rect :=
  fst (squarify_run values x y w h padding).


(** Geometry vocabulary for the statements. *)
Definition area (r : Rect) : Q := rw r * rh r.


(** [r] lies within [c]. *)
Definition inside (r c : Rect) : Prop :=
  rx c <= rx r /\ rx r + rw r <= rx c + rw c /\
  ry c <= ry r /\ ry r + rh r <= ry c + rh c.

Definition Rect_eqb (a b : Rect) : bool :=
  Qeq_bool (rx a) (rx b) && Qeq_bool (ry a) (ry b) &&
  Qeq_bool (rw a) (rw b) && Qeq_bool (rh a) (rh b).

Fixpoint Rects_eqb (l1 l2 : list Rect) : bool :=
  match l1, l2 with
  | [], [] => true
  | a :: l1', b :: l2' => Rect_eqb a b && Rects_eqb l1' l2'
  | _, _ => false
  end.



(** Equality of [worst_ratio] values, up to [==] on the rationals. *)
Definition ratio_eq (a b : ratio) : Prop :=
  match a, b with
  | Inf, Inf => True
  | Fin p, Fin q => p == q
  | _, _ => False
  end.



(** Swapping the two axes. *)
Definition transpose (r : Rect) : Rect := mkRect (ry r) (rx r) (rh r) (rw r).




End Treemap.

(** * Sankey flow layout: scripts/sankey/builder.py *)
Module Sankey.

(** A node [{"id": ..., "col": ...}] and a link
    [{"source": ..., "target": ..., "value": ...}]. *)
Record node := mkNode { n_id : string; n_col : Z }.
Record link := mkLink { l_source : string; l_target : string; l_value : Q }.

(** The options the geometry reads: [height], [node_width],
    [node_padding] and [curvature]. *)
Record options := mkOptions
  { height : Z; node_width_frac : Q; node_pad : Q; bend : Q }.

(** [validate_sankey]: the loop over the nodes fills [cols]. *)
Fixpoint validate_nodes (nodes : list node) (cols : gmap string Z)
    : result (gmap string Z) :=
  match nodes with
  | [] => Ok cols
  | n :: rest =>
      _ ← require (0 <=? n_col n)%Z "nodes[i].col must be int>=0";
      validate_nodes rest (<[n_id n := n_col n]> cols)
  end.

(** The loop over the links. *)
Fixpoint validate_links (links : list link) (cols : gmap string Z)
    : result unit :=
  match links with
  | [] => Ok tt
  | e :: rest =>
      match cols !! l_source e, cols !! l_target e with
      | Some cs, Some ct =>
          _ ← require (Z.abs (cs - ct) =? 1)%Z
                "links[j] must connect adjacent columns";
          validate_links rest cols
      | _, _ => Raise (ValueError "links[j] references unknown node")
      end
  end.

Definition validate_sankey (nodes : list node) (links : list link)
    : result unit :=
  _ ← require (negb (bool_decide (nodes = []))) "sankey: missing nodes";
  _ ← require (negb (bool_decide (links = []))) "sankey: missing links";
  cols ← validate_nodes nodes ∅;
  validate_links links cols.

(** [_stack_positions(sizes, padding_px)], [y] being the running top. *)
Fixpoint stack_from (sizes : list Q) (padding_px y : Q) : list Q :=
  match sizes with
  | [] => []
  | h :: rest => y :: stack_from rest padding_px (y + (h + padding_px))
  end.

Definition _stack_positions (sizes : list Q) (padding_px : Q) : list Q :=
  stack_from sizes padding_px 0.

(** [_bezier_ribbon]: the nine vertices of the path (the path codes are
    constants and left out). *)
Definition _bezier_ribbon (x0 y0 x1 y1 w0 w1 bend : Q) : list (Q * Q) :=
  let cx0 := x0 + bend * (x1 - x0) in
  let cx1 := x1 - bend * (x1 - x0) in
  [ (x0, y0 + w0); (cx0, y0 + w0); (cx1, y1 + w1); (x1, y1 + w1);
    (x1, y1); (cx1, y1); (cx0, y0); (x0, y0);
    (x0, y0 + w0) ].

(** The thickness of a ribbon where it leaves its source (between the
    first and the eighth vertex) and where it enters its target (between
    the fourth and the fifth). *)
Definition thickness_out (path : list (Q * Q)) : Q :=
  snd (nth 0 path (0, 0)) - snd (nth 7 path (0, 0)).

Definition thickness_in (path : list (Q * Q)) : Q :=
  snd (nth 3 path (0, 0)) - snd (nth 4 path (0, 0)).

(** [by_col.setdefault(n["col"], []).append(n)] over the nodes. *)
Definition group_by_col (nodes : list node) : gmap Z (list node) :=
  fold_left
    (fun by_col n => <[n_col n := default [] (by_col !! n_col n) ++ [n]]> by_col)
    nodes ∅.

(** [sorted(by_col.keys())]. *)
Definition sorted_cols (by_col : gmap Z (list node)) : list Z :=
  merge_sort Z.le (map fst (map_to_list by_col)).

(** [{n["id"]: 0.0 for n in nodes}]. *)
Definition zero_sums (nodes : list node) : gmap string Q :=
  fold_left (fun d n => <[n_id n := 0]> d) nodes ∅.

(** The loop [for e in links] that adds the values up:
    [out_sums[e["source"]] += v; in_sums[e["target"]] += v]. *)
Fixpoint sum_flows (links : list link) (in_sums out_sums : gmap string Q)
    : result (gmap string Q * gmap string Q) :=
  match links with
  | [] => Ok (in_sums, out_sums)
  | e :: rest =>
      o ← getitem out_sums (l_source e);
      let out_sums' := <[l_source e := o + l_value e]> out_sums in
      i ← getitem in_sums (l_target e);
      let in_sums' := <[l_target e := i + l_value e]> in_sums in
      sum_flows rest in_sums' out_sums'
  end.

(** [{n["id"]: max(in_sums[..], out_sums[..], 0.0) for n in nodes}]. *)
Fixpoint size_units (nodes : list node) (in_sums out_sums : gmap string Q)
    (d : gmap string Q) : result (gmap string Q) :=
  match nodes with
  | [] => Ok d
  | n :: rest =>
      i ← getitem in_sums (n_id n);
      o ← getitem out_sums (n_id n);
      size_units rest in_sums out_sums (<[n_id n := Qmax (Qmax i o) 0]> d)
  end.

(** [[f(n) for n in nodes_c]] with [f] reading a dict at [n["id"]]. *)
Fixpoint read_all (d : gmap string Q) (f : Q -> Q) (nodes_c : list node)
    : result (list Q) :=
  match nodes_c with
  | [] => Ok []
  | n :: rest =>
      v ← getitem d (n_id n);
      vs ← read_all d f rest;
      Ok (f v :: vs)
  end.

(** [{c: sum(node_size_units[n["id"]] for n in by_col[c]) ...}], as the
    list of the sums in the order of [cols_sorted]. *)
Fixpoint col_sums (cols : list Z) (by_col : gmap Z (list node))
    (node_size_units : gmap string Q) : result (list Q) :=
  match cols with
  | [] => Ok []
  | c :: rest =>
      vs ← read_all node_size_units (fun v => v) (default [] (by_col !! c));
      ss ← col_sums rest by_col node_size_units;
      Ok (sumQ vs :: ss)
  end.

(** [max(max_in_col.values()) if max_in_col else 1.0]. *)
Definition max_or_one (max_in_col : list Q) : Q :=
  match max_in_col with
  | [] => 1
  | _ :: _ => list_max max_in_col
  end.

(** The value of [global_max] for the given input: the sums per node,
    the size of each node, the total per column and the greatest of
    those. *)
Definition global_max_of (nodes : list node) (links : list link) : result Q :=
  '(in_sums, out_sums) ← sum_flows links (zero_sums nodes) (zero_sums nodes);
  node_size_units ← size_units nodes in_sums out_sums ∅;
  let by_col := group_by_col nodes in
  max_in_col ← col_sums (sorted_cols by_col) by_col node_size_units;
  Ok (max_or_one max_in_col).

(** A Python float division. *)
Definition py_div (a b : Q) : result Q :=
  if Qeq_bool b 0 then Raise ZeroDivisionError else Ok (a / b).

(** [np.linspace(a, b, n)]. *)
Definition linspace (a b : Q) (n : nat) : list Q :=
  match n with
  | O => []
  | S O => [a]
  | _ =>
      let step := (b - a) / inject_Z (Z.of_nat (n - 1)) in
      map (fun i => inject_Z (Z.of_nat i) * step + a) (seq 0 n)
  end.

(** An entry of [node_layout]. *)
Record box := mkBox { b_x0 : Q; b_y0 : Q; b_h : Q }.

(** The inner loop [for n, h, y in zip(nodes_c, heights_px, ys)]. *)
Fixpoint place_nodes (nodes_c : list node) (heights_px ys : list Q)
    (x y_offset : Q) (node_layout : gmap string box) : gmap string box :=
  match nodes_c, heights_px, ys with
  | n :: nodes', h :: heights', y :: ys' =>
      place_nodes nodes' heights' ys' x y_offset
        (<[n_id n := mkBox x (y + y_offset) h]> node_layout)
  | _, _, _ => node_layout
  end.

(** The loop [for c in cols_sorted]; [i] is [col_index[c]]. *)
Fixpoint place_cols (cols : list Z) (i : nat) (by_col : gmap Z (list node))
    (node_size_units : gmap string Q) (unit_to_px usable_h_px pad : Q)
    (x_positions : list Q) (node_layout : gmap string box)
    : result (gmap string box) :=
  match cols with
  | [] => Ok node_layout
  | c :: rest =>
      let nodes_c := default [] (by_col !! c) in
      heights_px ← read_all node_size_units (fun v => v * unit_to_px) nodes_c;
      let ys := _stack_positions heights_px (pad * 1.5) in
      let y_offset :=
        match heights_px with
        | _ :: _ =>
            let total := List.last ys 0 + List.last heights_px 0 in
            (usable_h_px - total) / 2
        | [] => usable_h_px / 2
        end in
      place_cols rest (S i) by_col node_size_units unit_to_px usable_h_px pad
        x_positions
        (place_nodes nodes_c heights_px ys (nth i x_positions 0) y_offset
           node_layout)
  end.

(** The loop [for i, e in enumerate(links)] that draws the ribbons and
    advances the two offsets of the nodes it touches. *)
Fixpoint draw_links (links : list link) (node_layout : gmap string box)
    (unit_to_px node_w bend : Q) (out_offset in_offset : gmap string Q)
    (paths : list (list (Q * Q))) : result (list (list (Q * Q))) :=
  match links with
  | [] => Ok paths
  | e :: rest =>
      s ← getitem node_layout (l_source e);
      t ← getitem node_layout (l_target e);
      let x0 := b_x0 s + node_w / 2 in
      let x1 := b_x0 t - node_w / 2 in
      let h_px := l_value e * unit_to_px in
      oo ← getitem out_offset (l_source e);
      let y0 := b_y0 s + oo in
      io ← getitem in_offset (l_target e);
      let y1 := b_y0 t + io in
      let path := _bezier_ribbon x0 y0 x1 y1 h_px h_px bend in
      let out_offset' := <[l_source e := oo + h_px]> out_offset in
      let in_offset' := <[l_target e := io + h_px]> in_offset in
      draw_links rest node_layout unit_to_px node_w bend out_offset' in_offset'
        (paths ++ [path])
  end.

(** What [build] has computed when it starts to paint the nodes. *)
Record layout := mkLayout
  { in_sums : gmap string Q;
    out_sums : gmap string Q;
    unit_to_px : Q;
    node_layout : gmap string box;
    ribbons : list (list (Q * Q)) }.

(** The geometry part of [build]. *)
Definition build (nodes : list node) (links : list link) (opt : options)
    : result layout :=
  _ ← validate_sankey nodes links;
  let by_col := group_by_col nodes in
  let cols_sorted := sorted_cols by_col in
  let ncols := length cols_sorted in
  '(in_sums, out_sums) ← sum_flows links (zero_sums nodes) (zero_sums nodes);
  node_size_units ← size_units nodes in_sums out_sums ∅;
  max_in_col ← col_sums cols_sorted by_col node_size_units;
  let global_max := max_or_one max_in_col in
  let usable_h_px := inject_Z (height opt) * 0.85 in
  unit_to_px ← py_div usable_h_px global_max;
  let x_positions := linspace 0.1 0.9 ncols in
  let node_w := node_width_frac opt * 1.2 in
  node_layout ← place_cols cols_sorted 0 by_col node_size_units unit_to_px
                   usable_h_px (node_pad opt) x_positions ∅;
  paths ← draw_links links node_layout unit_to_px node_w (bend opt)
             (zero_sums nodes) (zero_sums nodes) [];
  Ok (mkLayout in_sums out_sums unit_to_px node_layout paths).

(** The ribbons of the links that satisfy [sel], in link order: the
    i-th ribbon belongs to the i-th link. *)
Definition ribbons_where (sel : link -> bool) (links : list link)
    (paths : list (list (Q * Q))) : list (list (Q * Q)) :=
  map snd (List.filter (fun ep => sel (fst ep)) (zip links paths)).

(** Every node of a listed column has an entry in [d]. *)
Definition cols_covered (cols : list Z) (by_col : gmap Z (list node))
    {A : Type} (d : gmap string A) : Prop :=
  forall c, c ∈ cols ->
    forall n, n ∈ default [] (by_col !! c) -> is_Some (d !! n_id n).

(** The sum of the values of the links that satisfy [sel]. *)
Definition flow_of (sel : link -> bool) (links : list link) : Q :=
  sumQ (map l_value (List.filter sel links)).

(** What the summing loop leaves in the two dicts: every key it held
    is still there, raised by the flow of the links that name it. *)
Definition raised_by (sel : string -> link -> bool) (links : list link)
    (d d' : gmap string Q) : Prop :=
  forall k,
    match d !! k with
    | Some v => exists v', d' !! k = Some v' /\ v' == v + flow_of (sel k) links
    | None => d' !! k = None
    end.

(** The link [e] leaves (enters) the node with id [k]. *)
Definition from_node (k : string) (e : link) : bool := String.eqb (l_source e) k.
Definition into_node (k : string) (e : link) : bool := String.eqb (l_target e) k.

(** The ribbon [path] of the link [e] is as thick at both ends as the link's
    value times [unit_to_px]. *)
Definition ribbon_of (u : Q) (e : link) (path : list (Q * Q)) : Prop :=
  thickness_out path == l_value e * u /\ thickness_in path == l_value e * u.

(** The flow of every node is conserved in the layout [lay]: its
    out-sum and in-sum are the totals of the links that leave and enter
    it, the ribbons that leave it are together as thick as its out-sum
    times [unit_to_px], those that enter it as its in-sum times
    [unit_to_px]. *)
Definition conserved (nodes : list node) (links : list link) (lay : layout)
    : Prop :=
  forall n, n ∈ nodes ->
    exists o i,
      out_sums lay !! n_id n = Some o /\
      in_sums lay !! n_id n = Some i /\
      o == flow_of (from_node (n_id n)) links /\
      i == flow_of (into_node (n_id n)) links /\
      sumQ (map thickness_out
              (ribbons_where (from_node (n_id n)) links (ribbons lay)))
        == o * unit_to_px lay /\
      sumQ (map thickness_in
              (ribbons_where (into_node (n_id n)) links (ribbons lay)))
        == i * unit_to_px lay.

(** The greatest column total is not zero, so that the division by
    [global_max] does not raise. *)
Definition flows_nonzero (nodes : list node) (links : list link) : Prop :=
  forall g, global_max_of nodes links = Ok g -> ~ g == 0.

End Sankey.

(** * Graph lanes: scripts/flow/builder.py *)
Module Flow.

(** A node [{"id": ..., "type": ...}] and an edge
    [{"from": ..., "to": ...}]. *)
Record node := mkNode { n_id : string; n_type : string }.
Record edge := mkEdge { e_from : string; e_to : string }.

(** [validate_flow]: the ids of the nodes, then the check of the edges. *)
Definition node_ids (nodes : list node) : gset string :=
  list_to_set (map n_id nodes).

Fixpoint validate_edges (edges : list edge) (ids : gset string) : result unit :=
  match edges with
  | [] => Ok tt
  | e :: rest =>
      _ ← require (bool_decide (e_from e ∈ ids) && bool_decide (e_to e ∈ ids))
            "edges[j] references unknown node";
      validate_edges rest ids
  end.

Definition validate_flow (nodes : list node) (edges : list edge) : result unit :=
  _ ← require (negb (bool_decide (nodes = []))) "flow: missing nodes";
  validate_edges edges (node_ids nodes).

(** [{n["id"]: [] for n in nodes}]. *)
Definition empty_preds (nodes : list node) : gmap string (list string) :=
  fold_left (fun d n => <[n_id n := []]> d) nodes ∅.

(** [for e in edges: preds[e["to"]].append(e["from"])]. *)
Fixpoint fill_preds (edges : list edge) (preds : gmap string (list string))
    : result (gmap string (list string)) :=
  match edges with
  | [] => Ok preds
  | e :: rest =>
      ps ← getitem preds (e_to e);
      fill_preds rest (<[e_to e := ps ++ [e_from e]]> preds)
  end.

(** The initial lanes: the override of a node, or 0.  An empty
    [lane_override] is falsy and takes the second comprehension, with
    the same result. *)
Definition initial_lanes (nodes : list node) (lane_override : gmap string Z)
    : gmap string Z :=
  if bool_decide (lane_override = ∅)
  then fold_left (fun d n => <[n_id n := 0%Z]> d) nodes ∅
  else fold_left
         (fun d n => <[n_id n := default 0%Z (lane_override !! n_id n)]> d)
         nodes ∅.

(** [max(lane[p] for p in ps)], [cur] being the running maximum. *)
Fixpoint max_from (lane : gmap string Z) (ps : list string) (cur : Z)
    : result Z :=
  match ps with
  | [] => Ok cur
  | p :: rest =>
      v ← getitem lane p;
      max_from lane rest (Z.max cur v)
  end.

Definition max_lane (lane : gmap string Z) (ps : list string) : result Z :=
  match ps with
  | [] => Raise (ValueError "max() arg is an empty sequence")
  | p :: rest =>
      v ← getitem lane p;
      max_from lane rest v
  end.

(** One pass [for n in nodes] of the layering loop. *)
Fixpoint lane_pass (nodes : list node) (preds : gmap string (list string))
    (lane_override : gmap string Z) (lane : gmap string Z) (changed : bool)
    : result (gmap string Z * bool) :=
  match nodes with
  | [] => Ok (lane, changed)
  | n :: rest =>
      if bool_decide (is_Some (lane_override !! n_id n))
      then lane_pass rest preds lane_override lane changed
      else
        ps ← getitem preds (n_id n);
        match ps with
        | [] => lane_pass rest preds lane_override lane changed
        | _ :: _ =>
            m ← max_lane lane ps;
            l ← getitem lane (n_id n);
            if (l <=? m)%Z
            then lane_pass rest preds lane_override
                   (<[n_id n := (m + 1)%Z]> lane) true
            else lane_pass rest preds lane_override lane changed
        end
  end.

(** [for _ in range(passes)] with the [break] on an unchanged pass. *)
Fixpoint lane_loop (passes : nat) (nodes : list node)
    (preds : gmap string (list string)) (lane_override : gmap string Z)
    (lane : gmap string Z) : result (gmap string Z) :=
  match passes with
  | O => Ok lane
  | S passes' =>
      '(lane1, changed) ← lane_pass nodes preds lane_override lane false;
      if (changed : bool)
      then lane_loop passes' nodes preds lane_override lane1
      else Ok lane1
  end.

(** [_auto_lanes(nodes, edges, lane_override)]. *)
Definition _auto_lanes (nodes : list node) (edges : list edge)
    (lane_override : gmap string Z) : result (gmap string Z) :=
  preds ← fill_preds edges (empty_preds nodes);
  lane_loop 12 nodes preds lane_override (initial_lanes nodes lane_override).

(** The ids that edges into [k] come from, in edge order. *)
Definition sources_of (k : string) (edges : list edge) : list string :=
  map e_from (List.filter (fun e => String.eqb (e_to e) k) edges).

(** There is a path of one or more edges from [u] to [v]. *)
Inductive path (edges : list edge) : string -> string -> Prop :=
| path_edge (e : edge) :
    e ∈ edges -> path edges (e_from e) (e_to e)
| path_cons (e : edge) (v : string) :
    e ∈ edges -> path edges (e_to e) v -> path edges (e_from e) v.

(** The edge [e] lies on a cycle: its target leads back to its source. *)
Definition on_cycle (edges : list edge) (e : edge) : Prop :=
  path edges (e_to e) (e_from e).

(** The edge [e] goes to a strictly higher lane. *)
Definition ascends (lane : gmap string Z) (e : edge) : Prop :=
  exists lu lv,
    lane !! e_from e = Some lu /\ lane !! e_to e = Some lv /\ (lu < lv)%Z.

(** One more pass over [lane] would change nothing. *)
Definition fixed_point (nodes : list node) (edges : list edge)
    (lane_override : gmap string Z) (lane : gmap string Z) : Prop :=
  exists preds,
    fill_preds edges (empty_preds nodes) = Ok preds /\
    lane_pass nodes preds lane_override lane false = Ok (lane, false).

(** A chain [n00 -> n01 -> ... -> n13] whose nodes are listed from the
    last to the first. *)
Definition chain_ids : list string :=
  ["n00"; "n01"; "n02"; "n03"; "n04"; "n05"; "n06";
   "n07"; "n08"; "n09"; "n10"; "n11"; "n12"; "n13"].

Definition chain_nodes : list node :=
  map (fun i => mkNode i "process") (rev chain_ids).

Definition chain_edges : list edge :=
  zip_with mkEdge chain_ids (tail chain_ids).

(** The position of an id in [chain_ids]. *)
Definition chain_rank (i : string) : nat :=
  default 0%nat (fst <$> list_find (fun j => j = i) chain_ids).

(** [_route_polyline(x0, y0, x1, y1, backward=...)]; [sep] is not read. *)
Definition _route_polyline (x0 y0 x1 y1 : Q) (backward : bool)
    : list (Q * Q) :=
  if negb backward then
    let mid := (x0 + x1) / 2 in
    [(x0, y0); (mid, y0); (mid, y1); (x1, y1)]
  else
    let up := Qmax y0 y1 + 60 in
    let left := Qmin x0 x1 - 60 in
    [(x0, y0); (x0, up); (left, up); (left, y1); (x1, y1)].

(** Every segment of the polyline is vertical or horizontal. *)
Fixpoint orthogonal (pts : list (Q * Q)) : Prop :=
  match pts with
  | p :: ((q :: _) as rest) =>
      (fst p = fst q \/ snd p = snd q) /\ orthogonal rest
  | _ => True
  end.

(** Between [lane] and [lane'] the entry of [k] is the same, or [k] is
    a node without override that has predecessors and its lane went
    up. *)
Definition moved_up (preds : gmap string (list string))
    (lane_override lane lane' : gmap string Z) (k : string) : Prop :=
  lane' !! k = lane !! k \/
  (lane_override !! k = None /\
   (exists ps, preds !! k = Some ps /\ ps <> []) /\
   exists v v', lane !! k = Some v /\ lane' !! k = Some v' /\ (v < v')%Z).

(** The node [n] lies above all its predecessors in [lane] (nothing is
    asked of a node with an override or without predecessors). *)
Definition settled (preds : gmap string (list string))
    (lane_override lane : gmap string Z) (n : node) : Prop :=
  lane_override !! n_id n = None ->
  forall ps, preds !! n_id n = Some ps -> ps <> [] ->
    exists m l,
      max_lane lane ps = Ok m /\ lane !! n_id n = Some l /\ (m < l)%Z.

(** The nodes are listed in a topological order of the edges: every
    edge goes from a node to one listed later. *)
Definition listed_in_order (nodes : list node) (edges : list edge) : Prop :=
  forall e, e ∈ edges ->
    exists i j : nat,
      map n_id nodes !! i = Some (e_from e) /\
      map n_id nodes !! j = Some (e_to e) /\ (i < j)%nat.

(** The node [n] sits one lane above the highest of its predecessors,
    and not below lane 0. *)
Definition longest_path (preds : gmap string (list string))
    (lane_override lane : gmap string Z) (n : node) : Prop :=
  lane_override !! n_id n = None ->
  forall ps, preds !! n_id n = Some ps -> ps <> [] ->
    exists m,
      max_lane lane ps = Ok m /\
      lane !! n_id n = Some (Z.max 0 (m + 1)).

(** No predecessor of a node is the node itself or listed after it. *)
Fixpoint preds_earlier (preds : gmap string (list string))
    (nodes : list node) : Prop :=
  match nodes with
  | [] => True
  | n :: rest =>
      (forall ps p, preds !! n_id n = Some ps -> p ∈ ps ->
         p ∉ n_id n :: map n_id rest) /\
      preds_earlier preds rest
  end.

(** A diamond [a -> b -> d], [a -> c -> d]. *)
Definition diamond_nodes : list node :=
  [mkNode "a" "start"; mkNode "b" "process"; mkNode "c" "decision";
   mkNode "d" "end"].

Definition diamond_edges : list edge :=
  [mkEdge "a" "b"; mkEdge "a" "c"; mkEdge "b" "d"; mkEdge "c" "d"].

End Flow.

(** * Radial partition: charts/sunburst/builder.py *)
Module Sunburst.

(** A node of the hierarchy, a dict with the keys ["label"], ["value"],
    optionally ["children"], and ["inner"] once the layout has written
    it ([None]: the key is absent). *)
#[warnings="-register-all"]
Inductive node := mkNode
  { label : string;
    value : Q;
    inner : option Q;
    children : option (list node) }.

(** A tuple [(inner, outer, theta1, theta2, label, depth, value)]. *)
Record slice := mkSlice
  { s_inner : Q; s_outer : Q; theta1 : Q; theta2 : Q;
    s_label : string; s_depth : Z; s_value : Q }.

(** [max_depth is not None and depth > max_depth]. *)
Definition too_deep (max_depth : option Z) (depth : Z) : bool :=
  match max_depth with
  | None => false
  | Some d => (d <? depth)%Z
  end.

(** [ch["value"]/total if total > 0 else 0]. *)
Definition frac_of (total v : Q) : Q :=
  if Qlt_bool 0 total then v / total else 0.

(** The loop [for ch in node["children"]]: [layout_child ch a w slices]
    stands for [ch["inner"] = outer] followed by the recursive call on
    [ch] with start [a] and span [w]; the loop returns the children as
    the calls left them and the list of slices. *)
Definition layout_children
    (layout_child : node -> Q -> Q -> list slice -> result (node * list slice))
    (total span : Q) :=
  fix go (l : list node) (a : Q) (slices : list slice)
      : result (list node * list slice) :=
    match l with
    | [] => Ok ([], slices)
    | ch :: rest =>
        let frac := frac_of total (value ch) in
        '(ch', slices1) ← layout_child ch a (span * frac) slices;
        '(rest', slices2) ← go rest (a + span * frac) slices1;
        Ok (ch' :: rest', slices2)
    end.

(** [_layout] on the node [nd] whose key ["inner"] currently holds
    [inn]; the field [inner] of [nd] itself is not read.  Returns the
    node as the call leaves it and the list [slices]. *)
Fixpoint layout_at (nd : node) (inn : option Q) (start span : Q) (depth : Z)
    (ring_thick gap_rad : Q) (max_depth : option Z) (slices : list slice)
    {struct nd} : result (node * list slice) :=
  if too_deep max_depth depth
  then Ok (mkNode (label nd) (value nd) inn (children nd), slices)
  else
    match inn with
    | None => Raise (KeyError "inner")
    | Some i =>
        let outer := i + ring_thick in
        let t1 := start + gap_rad / 2 in
        let t2 := start + span - gap_rad / 2 in
        let slices1 :=
          slices ++ [mkSlice i outer t1 t2 (label nd) depth (value nd)] in
        match children nd with
        | Some ((_ :: _) as chs) =>
            let total := sumQ (map value chs) in
            '(chs', slices2) ←
              layout_children
                (fun ch a w sl =>
                   layout_at ch (Some outer) a w (depth + 1) ring_thick
                     gap_rad max_depth sl)
                total span chs start slices1;
            Ok (mkNode (label nd) (value nd) inn (Some chs'), slices2)
        | _ => Ok (mkNode (label nd) (value nd) inn (children nd), slices1)
        end
    end.

(** [_layout(node, start, span, depth, ring_thick, gap_rad, max_depth,
    slices)]. *)
Definition _layout (nd : node) (start span : Q) (depth : Z)
    (ring_thick gap_rad : Q) (max_depth : option Z) (slices : list slice)
    : result (node * list slice) :=
  layout_at nd (inner nd) start span depth ring_thick gap_rad max_depth slices.

(** The geometry part of [build]: [root["inner"] = inner_frac], then
    [_layout] from depth 0.  [start_rad] and [two_pi] are the doubles
    [np.deg2rad(start_angle)] and [2*np.pi]. *)
Definition build (root : node) (inner_frac ring_thickness gap_rad : Q)
    (max_depth : option Z) (start_rad two_pi : Q)
    : result (node * list slice) :=
  let root1 := mkNode (label root) (value root) (Some inner_frac)
                 (children root) in
  _layout root1 start_rad two_pi 0 ring_thickness gap_rad max_depth [].

(** The node without its ["inner"] keys, at every level. *)
Fixpoint erase_inner (nd : node) : node :=
  mkNode (label nd) (value nd) None
    (match children nd with
     | None => None
     | Some chs => Some (map erase_inner chs)
     end).

(** A node without children. *)
Definition is_leaf (nd : node) : Prop :=
  children nd = None \/ children nd = Some [].

(** A wedge of no extent before the gap, placed at the angle [a]. *)
Definition collapsed_at (gap_rad a : Q) (s : slice) : Prop :=
  theta1 s == a + gap_rad / 2 /\ theta2 s == a - gap_rad / 2.

(** What a call on a node does: it writes nothing but ["inner"] keys,
    it only appends to [slices], its first append (when the depth limit
    lets it run) is the node's own wedge, and with a span of zero all
    its appends are collapsed at the start angle. *)
Definition call_ok (ring_thick gap_rad : Q) (max_depth : option Z)
    (depth : Z) (nd : node) (inn : option Q) (a w : Q)
    (slices : list slice) (nd' : node) (slices' : list slice) : Prop :=
  erase_inner nd' = erase_inner nd /\
  inner nd' = inn /\
  exists new,
    slices' = slices ++ new /\
    (too_deep max_depth depth = false ->
     exists i rest,
       inn = Some i /\
       new = mkSlice i (i + ring_thick) (a + gap_rad / 2)
               (a + w - gap_rad / 2) (label nd) depth (value nd) :: rest) /\
    (w == 0 -> forall a0, a == a0 -> Forall (collapsed_at gap_rad a0) new).

(** The angular span a wedge had before the gap was taken off its two
    ends. *)
Definition pre_gap_span (gap_rad : Q) (s : slice) : Q :=
  theta2 s - theta1 s + gap_rad.

(** The nodes of a hierarchy in pre-order: a node, then the subtrees of
    its children from the first to the last. *)
Fixpoint preorder (nd : node) : list node :=
  nd :: match children nd with
        | None => []
        | Some chs => concat (map preorder chs)
        end.

(** A wedge emitted below a call at depth [d] on a node of inner radius
    [i]: it is no higher than [d], within the depth limit, and its radii
    are those of its ring. *)
Definition in_ring (ring_thick : Q) (max_depth : option Z) (d : Z) (i : Q)
    (s : slice) : Prop :=
  (d <= s_depth s)%Z /\
  too_deep max_depth (s_depth s) = false /\
  s_inner s == i + inject_Z (s_depth s - d) * ring_thick /\
  s_outer s == s_inner s + ring_thick.

(** What the calls on the children [chs] appended, one list per child:
    [P ch a w new] holds of each child [ch], of the start angle [a] and
    the span [w] it was called with and of the slices [new] it
    appended. *)
Fixpoint children_rel (P : node -> Q -> Q -> list slice -> Prop)
    (total span : Q) (chs : list node) (a : Q) (news : list (list slice))
    : Prop :=
  match chs, news with
  | [], [] => True
  | ch :: chs', new :: news' =>
      P ch a (span * frac_of total (value ch)) new /\
      children_rel P total span chs' (a + span * frac_of total (value ch)) news'
  | _, _ => False
  end.

(** The wedges [kids] follow one another from the angle [a] to the
    angle [b]: each begins (before the gap) where the one before it
    ends. *)
Fixpoint chained (gap_rad a b : Q) (kids : list slice) : Prop :=
  match kids with
  | [] => a == b
  | s :: kids' =>
      theta1 s == a + gap_rad / 2 /\
      chained gap_rad (theta2 s + gap_rad / 2) b kids'
  end.

(** The wedges of [slices] at depth [d]. *)
Definition at_depth (d : Z) (slices : list slice) : list slice :=
  List.filter (fun s => (s_depth s =? d)%Z) slices.

(** The child [ch], called at depth [d] with the inner radius [i], the
    start [a] and the span [w], appended its own wedge and, after it,
    only deeper ones. *)
Definition child_wedge (ring_thick gap_rad : Q) (d : Z) (i : Q) (ch : node)
    (a w : Q) (new : list slice) : Prop :=
  exists rest,
    new = mkSlice i (i + ring_thick) (a + gap_rad / 2) (a + w - gap_rad / 2)
            (label ch) d (value ch) :: rest /\
    Forall (fun s => (d + 1 <= s_depth s)%Z) rest.

(** The hierarchy as a call of [_layout] at [depth] leaves it, for a
    node whose key ["inner"] was set to [i] before the call: label,
    value and children stay; when the depth limit lets the call run,
    every child has had its ["inner"] set to [outer = i + ring_thick]
    and has been laid out one level down; below the depth limit nothing
    is touched. *)
Fixpoint with_inner (ring_thick : Q) (max_depth : option Z) (depth : Z)
    (i : Q) (nd : node) {struct nd} : node :=
  mkNode (label nd) (value nd) (Some i)
    (if too_deep max_depth depth then children nd
     else match children nd with
          | None => None
          | Some chs =>
              Some (map (with_inner ring_thick max_depth (depth + 1)
                           (i + ring_thick)) chs)
          end).

End Sunburst.

(** * Funnel widths: charts/funnel/builder.py *)
Module Funnel.

(** A numpy double: a finite value, an infinity or NaN.  The widths
    are computed on a numpy array, where a division by zero does not
    raise: it yields an infinity or NaN.  The model has one zero, which
    stands for [+0.0]. *)
Inductive npfloat := NaN | PInf | NInf | Fin (q : Q).

(** Equality up to [==] on the finite values. *)
Definition np_eq (a b : npfloat) : Prop :=
  match a, b with
  | NaN, NaN | PInf, PInf | NInf, NInf => True
  | Fin p, Fin q => p == q
  | _, _ => False
  end.

(** [a / b] of two doubles. *)
Definition np_div (a b : npfloat) : npfloat :=
  match a, b with
  | NaN, _ | _, NaN => NaN
  | (PInf | NInf), (PInf | NInf) => NaN
  | PInf, Fin q => if Qlt_bool q 0 then NInf else PInf
  | NInf, Fin q => if Qlt_bool q 0 then PInf else NInf
  | Fin _, (PInf | NInf) => Fin 0
  | Fin p, Fin q =>
      if Qeq_bool q 0
      then (if Qeq_bool p 0 then NaN
            else if Qlt_bool 0 p then PInf else NInf)
      else Fin (p / q)
  end.

(** [np.maximum(a, b)] and [np.minimum(a, b)]: NaN wins. *)
Definition np_maximum (a b : npfloat) : npfloat :=
  match a, b with
  | NaN, _ | _, NaN => NaN
  | PInf, _ | _, PInf => PInf
  | NInf, x | x, NInf => x
  | Fin p, Fin q => Fin (Qmax p q)
  end.

Definition np_minimum (a b : npfloat) : npfloat :=
  match a, b with
  | NaN, _ | _, NaN => NaN
  | NInf, _ | _, NInf => NInf
  | PInf, x | x, PInf => x
  | Fin p, Fin q => Fin (Qmin p q)
  end.

(** [np.max(vals)] of a non-empty array. *)
Definition np_max (vals : list npfloat) : result npfloat :=
  match vals with
  | [] => Raise (ValueError "zero-size array to reduction operation maximum")
  | v :: rest => Ok (fold_left np_maximum rest v)
  end.

(** [np.clip(x, lo, hi)], which is [minimum(maximum(x, lo), hi)]. *)
Definition np_clip (x : npfloat) (lo hi : Q) : npfloat :=
  np_minimum (np_maximum x (Fin lo)) (Fin hi).

(** [validate_funnel]: the stage list is not empty (that every value
    converts to a float is in the type). *)
Definition validate_funnel (stages : list npfloat) : result unit :=
  require (negb (bool_decide (stages = []))) "funnel: missing stages".

(** The widths computed by [build]:
    [base = vals[0] if normalize else np.max(vals)], then
    [np.clip(vals / base, 0.02, 1.0)]. *)
Definition widths (vals : list npfloat) (normalize : bool)
    : result (list npfloat) :=
  base ← (if normalize
          then match vals with
               | [] => Raise IndexError
               | v :: _ => Ok v
               end
          else np_max vals);
  Ok (map (fun v => np_clip (np_div v base) 0.02 1.0) vals).

Definition build (stages : list npfloat) (normalize : bool)
    : result (list npfloat) :=
  _ ← validate_funnel stages;
  widths stages normalize.

(** [clamp(x, lo, hi)]: [x] brought back into the interval. *)
Definition clamp (x lo hi : Q) : Q :=
  if Qlt_bool x lo then lo else if Qlt_bool hi x then hi else x.

(** [a < b] on doubles: false when either is NaN. *)
Definition np_lt (a b : npfloat) : bool :=
  match a, b with
  | NaN, _ | _, NaN => false
  | _, NInf | PInf, _ => false
  | NInf, _ | _, PInf => true
  | Fin p, Fin q => Qlt_bool p q
  end.

(** The same clamp on doubles: an infinity is brought back to the
    nearer bound, NaN compares with nothing and stays. *)
Definition np_clamp (x : npfloat) (lo hi : Q) : npfloat :=
  if np_lt x (Fin lo) then Fin lo
  else if np_lt (Fin hi) x then Fin hi
  else x.

(** A width that lies in the closed interval from 0.02 to 1. *)
Definition in_range (w : npfloat) : Prop :=
  match w with
  | Fin q => 0.02 <= q /\ q <= 1
  | _ => False
  end.

End Funnel.

(** * Properties *)

(** ** Rational helpers *)

Lemma Qlt_bool_iff (a b : Q) : Qlt_bool a b = true <-> a < b.
Proof.
  unfold Qlt_bool. rewrite negb_true_iff.
  destruct (Qle_bool b a) eqn:E.
  - apply Qle_bool_iff in E. split; [discriminate | lra].
  - split; [intros _ | reflexivity].
    destruct (Qlt_le_dec a b) as [Hlt | Hle]; [exact Hlt |].
    apply Qle_bool_iff in Hle. congruence.
Qed.

Lemma fold_left_Qplus_acc (l : list Q) (a : Q) :
  fold_left Qplus l a == a + fold_left Qplus l 0.
Proof.
  revert a. induction l as [| b l IH]; intros a; simpl.
  - lra.
  - rewrite (IH (a + b)), (IH (0 + b)). lra.
Qed.

Lemma sumQ_nil : sumQ [] == 0.
Proof. reflexivity. Qed.

Lemma sumQ_cons (a : Q) (l : list Q) : sumQ (a :: l) == a + sumQ l.
Proof. unfold sumQ. simpl. rewrite fold_left_Qplus_acc. lra. Qed.




(** ** Squarified treemap *)
Section TreemapFacts.
Import Treemap.





Lemma inside_transpose (a b : Rect) :
  inside (transpose a) (transpose b) <-> inside a b.
Proof. unfold inside, transpose; simpl. tauto. Qed.


Lemma strip_v_transpose (row : list Q) (x yy ww p : Q) :
  strip_v row x yy ww p = map transpose (strip_h row yy x ww p).
Proof.
  revert yy. induction row as [| r row IH]; intros yy; simpl.
  - reflexivity.
  - rewrite IH. reflexivity.
Qed.





Lemma layout_acc (row : list Q) (cur : Rect) (hz : bool) (p : Q)
    (rects : list Rect) :
  layout row cur hz p rects =
  (fst (layout row cur hz p []), rects ++ snd (layout row cur hz p [])).
Proof. unfold layout. destruct hz; reflexivity. Qed.





(** The loop of the program, run iteration by iteration with enough
    fuel, ends and returns what [squarify_loop] computes on the values
    from index [i] on. *)
Lemma squarify_while_fused (fuel : nat) :
  forall (vals : list Q) (i : nat) (row : list Q) (cur : Rect) (hz : bool)
         (p : Q) (rects : list Rect) (log : list closed_row),
    (2 * (length vals - i) + length row < fuel)%nat ->
    squarify_while fuel vals i row cur hz p rects log =
    Some (squarify_loop (drop i vals) row cur hz p rects log).
Proof.
  induction fuel as [| fuel IH]; intros vals i row cur hz p rects log Hfuel;
    [lia |].
  cbn [squarify_while].
  destruct (vals !! i) as [v |] eqn:Hv.
  - pose proof (lookup_lt_Some _ _ _ Hv) as Hi.
    rewrite (drop_S _ _ _ Hv). cbn [squarify_loop].
    destruct (_ || _) eqn:Hcond.
    + apply IH. rewrite length_app. simpl. lia.
    + destruct row as [| r row]; [discriminate |].
      destruct (layout (r :: row) cur hz p rects) as [cur' rects'].
      rewrite IH by (simpl in *; lia).
      rewrite (drop_S _ _ _ Hv). reflexivity.
  - apply lookup_ge_None in Hv. rewrite drop_ge by exact Hv.
    destruct row; reflexivity.
Qed.

Lemma squarify_while_run (values : list Q) (x y w h p : Q) :
  squarify_while (2 * length values + 1) (normalize values w h) 0 []
    (mkRect x y w h) true p [] [] = Some (squarify_run values x y w h p).
Proof.
  rewrite squarify_while_fused.
  - rewrite drop_0. reflexivity.
  - unfold normalize. rewrite length_map. simpl. lia.
Qed.

Lemma squarify_loop_acc (vals : list Q) :
  forall (row : list Q) (cur : Rect) (hz : bool) (p : Q)
         (rects : list Rect) (log : list closed_row),
    squarify_loop vals row cur hz p rects log =
    (rects ++ fst (squarify_loop vals row cur hz p [] []),
     log ++ snd (squarify_loop vals row cur hz p [] [])).
Proof.
  induction vals as [| v vals IH]; intros row cur hz p rects log; simpl.
  - destruct row as [| r row]; simpl.
    + rewrite !app_nil_r. reflexivity.
    + rewrite (layout_acc _ _ _ _ rects). reflexivity.
  - destruct (_ || _).
    + apply IH.
    + rewrite (layout_acc _ _ _ _ rects).
      destruct (layout row cur hz p []) as [c rs]; simpl.
      rewrite (IH [v] c (negb hz) p (rects ++ rs) (log ++ _)).
      rewrite (IH [v] c (negb hz) p rs [_]).
      simpl. rewrite <- !app_assoc. reflexivity.
Qed.





Lemma strip_h_length (row : list Q) (xx y hh p : Q) :
  length (strip_h row xx y hh p) = length row.
Proof.
  revert xx. induction row as [| r row IH]; intros xx; simpl;
    [reflexivity | f_equal; apply IH].
Qed.

Lemma layout_length (row : list Q) (cur : Rect) (hz : bool) (p : Q) :
  length (snd (layout row cur hz p [])) = length row.
Proof.
  unfold layout. destruct hz; simpl.
  - apply strip_h_length.
  - rewrite strip_v_transpose, length_map. apply strip_h_length.
Qed.

Lemma squarify_loop_length (vals : list Q) :
  forall (row : list Q) (cur : Rect) (hz : bool) (p : Q),
    length (fst (squarify_loop vals row cur hz p [] [])) =
    (length row + length vals)%nat.
Proof.
  induction vals as [| v vals IH]; intros row cur hz p; simpl.
  - destruct row as [| r row]; [reflexivity |].
    simpl fst. rewrite layout_length. simpl. lia.
  - destruct (_ || _).
    + rewrite IH, length_app. simpl. lia.
    + rewrite (layout_acc _ _ _ _ []). simpl app.
      rewrite squarify_loop_acc. simpl fst.
      rewrite length_app, IH, layout_length. simpl length. lia.
Qed.

Lemma squarify_length (values : list Q) (x y w h p : Q) :
  length (_squarify values x y w h p) = length values.
Proof.
  unfold _squarify, squarify_run. rewrite squarify_loop_length.
  unfold normalize. rewrite length_map. reflexivity.
Qed.




(** The sequence has to hold a value: for the empty one, which
    [validate_treemap] turns away before [_squarify] is called, no
    rectangle is returned and the areas add up to 0. *)
Lemma squarify_empty_sequence :
  ~ (forall (values : list Q) (x y w h : Q),
        Forall pos values -> 0 < w -> 0 < h ->
        sumQ (map area (_squarify values x y w h 0)) == w * h).
Proof.
  intros H. specialize (H [] 0 0 1 1 ltac:(constructor)).
  assert (H1 : 0 < 1) by reflexivity.
  specialize (H H1 H1). vm_compute in H. discriminate.
Qed.

(** *** The worst-ratio metric *)

Lemma fold_left_Qmax_spec (l : list Q) (a : Q) :
  (fold_left Qmax l a = a \/ In (fold_left Qmax l a) l) /\
  a <= fold_left Qmax l a /\
  Forall (fun v => v <= fold_left Qmax l a) l.
Proof.
  revert a. induction l as [| b l IH]; intros a; simpl.
  - split_and!; [left; reflexivity | lra | constructor].
  - destruct (IH (Qmax a b)) as (Hin & Hle & Hall).
    pose proof (Q.le_max_l a b). pose proof (Q.le_max_r a b).
    split_and!.
    + destruct Hin as [-> | Hin]; [| right; right; exact Hin].
      unfold Qmax, GenericMinMax.gmax. destruct (a ?= b); auto.
    + lra.
    + constructor; [lra | exact Hall].
Qed.

Lemma fold_left_Qmin_spec (l : list Q) (a : Q) :
  (fold_left Qmin l a = a \/ In (fold_left Qmin l a) l) /\
  fold_left Qmin l a <= a /\
  Forall (fun v => fold_left Qmin l a <= v) l.
Proof.
  revert a. induction l as [| b l IH]; intros a; simpl.
  - split_and!; [left; reflexivity | lra | constructor].
  - destruct (IH (Qmin a b)) as (Hin & Hle & Hall).
    pose proof (Q.le_min_l a b). pose proof (Q.le_min_r a b).
    split_and!.
    + destruct Hin as [-> | Hin]; [| right; right; exact Hin].
      unfold Qmin, GenericMinMax.gmin. destruct (a ?= b); auto.
    + lra.
    + constructor; [lra | exact Hall].
Qed.

Lemma list_max_is_max (row : list Q) (v : Q) :
  row <> [] -> is_max row v -> list_max row == v.
Proof.
  intros Hne [Hex Hub]. destruct row as [| a l]; [congruence |]. simpl.
  destruct (fold_left_Qmax_spec l a) as (Hin & Hle & Hall).
  apply Qle_antisym.
  - rewrite Forall_forall in Hub.
    destruct Hin as [-> | Hin].
    + apply Hub. left.
    + apply Hub. right. apply list_elem_of_In. exact Hin.
  - apply Exists_exists in Hex. destruct Hex as (u & Hu & Huv).
    rewrite <- Huv. apply elem_of_cons in Hu. destruct Hu as [-> | Hu].
    + exact Hle.
    + rewrite Forall_forall in Hall. apply Hall. exact Hu.
Qed.

Lemma list_min_is_min (row : list Q) (v : Q) :
  row <> [] -> is_min row v -> list_min row == v.
Proof.
  intros Hne [Hex Hlb]. destruct row as [| a l]; [congruence |]. simpl.
  destruct (fold_left_Qmin_spec l a) as (Hin & Hle & Hall).
  apply Qle_antisym.
  - apply Exists_exists in Hex. destruct Hex as (u & Hu & Huv).
    rewrite <- Huv. apply elem_of_cons in Hu. destruct Hu as [-> | Hu].
    + exact Hle.
    + rewrite Forall_forall in Hall. apply Hall. exact Hu.
  - rewrite Forall_forall in Hlb.
    destruct Hin as [-> | Hin].
    + apply Hlb. left.
    + apply Hlb. right. apply list_elem_of_In. exact Hin.
Qed.

(** C4 (as amended).  For a non-empty row with sum [S], greatest value
    [max_v], least value [min_v] and side [T], [worst_ratio] returns
    [max((T²·max_v)/S², S²/(T²·min_v))]. *)
Theorem worst_ratio_formula (row : list Q) (T max_v min_v : Q) :
  row <> [] -> is_max row max_v -> is_min row min_v ->
  ratio_eq (worst_ratio row T)
    (Fin (Qmax ((T * T * max_v) / (sumQ row * sumQ row))
               ((sumQ row * sumQ row) / (T * T * min_v)))).
Proof.
  intros Hne Hmax Hmin. unfold worst_ratio.
  destruct row as [| a l] eqn:Hrow; [congruence |]. rewrite <- Hrow in *.
  assert (Hne' : row <> []) by (rewrite Hrow; discriminate).
  unfold ratio_eq.
  rewrite (list_max_is_max row max_v Hne' Hmax).
  rewrite (list_min_is_min row min_v Hne' Hmin).
  simpl Qpower. reflexivity.
Qed.

(** The row [3, 1] against the side 2. *)
Lemma worst_ratio_formula_witness :
  [3; 1] <> [] /\ is_max [3; 1] 3 /\ is_min [3; 1] 1 /\
  ratio_eq (worst_ratio [3; 1] 2)
    (Fin (Qmax ((2 * 2 * 3) / (sumQ [3; 1] * sumQ [3; 1]))
               ((sumQ [3; 1] * sumQ [3; 1]) / (2 * 2 * 1)))).
Proof.
  assert (Hne : [3; 1] <> []) by discriminate.
  assert (Hmax : is_max [3; 1] 3)
    by (split; [left; reflexivity | repeat constructor; discriminate]).
  assert (Hmin : is_min [3; 1] 1)
    by (split; [right; left; reflexivity | repeat constructor; discriminate]).
  split; [exact Hne |]. split; [exact Hmax |]. split; [exact Hmin |].
  exact (worst_ratio_formula [3; 1] 2 3 1 Hne Hmax Hmin).
Defined.

(** C4 as stated, with [S] and [T] exchanged, fails: for the row [2]
    and [T = 1] the program computes 2, the stated formula gives 8. *)
Lemma worst_ratio_not_swapped :
  ~ (forall (row : list Q) (T max_v min_v : Q),
        row <> [] -> is_max row max_v -> is_min row min_v ->
        ratio_eq (worst_ratio row T)
          (Fin (Qmax ((sumQ row * sumQ row * max_v) / (T * T))
                     ((T * T) / (sumQ row * sumQ row * min_v))))).
Proof.
  intros H. specialize (H [2] 1 2 2).
  assert (Hmax : is_max [2] 2)
    by (split; [left; reflexivity | repeat constructor; discriminate]).
  assert (Hmin : is_min [2] 2)
    by (split; [left; reflexivity | repeat constructor; discriminate]).
  specialize (H ltac:(discriminate) Hmax Hmin).
  vm_compute in H. discriminate.
Qed.

(** *** No guard on the container *)

(** C7 (as amended).  [_squarify] checks neither the container nor the
    values and has no error path: for every container, also one with
    [w <= 0] or [h <= 0], and for every value sequence it returns one
    rectangle per value. *)
Theorem squarify_no_guard (values : list Q) (x y w h padding : Q) :
  length (_squarify values x y w h padding) = length values.
Proof. apply squarify_length. Qed.

(** C7 as stated fails: a container of width -2 is not rejected, the
    value [1] gets the rectangle [(0, 0, -2, 3)]. *)
Lemma squarify_degenerate_container :
  ~ (forall (values : list Q) (x y w h padding : Q),
        w <= 0 \/ h <= 0 \/ sumQ values == 0 ->
        _squarify values x y w h padding = []) /\
  Rects_eqb (_squarify [1] 0 0 (-2) 3 0) [mkRect 0 0 (-2) 3] = true.
Proof.
  split; [| reflexivity].
  intros H. specialize (H [1] 0 0 (-2) 3 0).
  assert (Hw : -2 <= 0 \/ 3 <= 0 \/ sumQ [1] == 0) by (left; discriminate).
  specialize (H Hw). discriminate.
Qed.

(** *** Orientation of the closed rows *)











End TreemapFacts.

(** ** Sankey flow layout *)
Section SankeyFacts.
Import Sankey.

Lemma bind_Ok {A B : Type} (r : result A) (f : A -> result B) (b : B) :
  (r ≫= f) = Ok b -> exists a, r = Ok a /\ f a = Ok b.
Proof. destruct r as [a | e]; simpl; [eauto | discriminate]. Qed.

Lemma getitem_Ok {A : Type} (d : gmap string A) (k : string) (v : A) :
  getitem d k = Ok v <-> d !! k = Some v.
Proof.
  unfold getitem. destruct (d !! k); split; intros H; congruence.
Qed.

Lemma getitem_is_Some {A : Type} (d : gmap string A) (k : string) :
  is_Some (d !! k) -> exists v, getitem d k = Ok v.
Proof. intros [v Hv]. exists v. apply getitem_Ok. exact Hv. Qed.

Lemma flow_of_cons (sel : link -> bool) (e : link) (links : list link) :
  flow_of sel (e :: links) ==
  (if sel e then l_value e else 0) + flow_of sel links.
Proof.
  unfold flow_of. simpl. destruct (sel e); simpl.
  - apply sumQ_cons.
  - lra.
Qed.

Lemma raised_by_step (sel : string -> link -> bool) (key : link -> string)
    (e : link) (links : list link) (d d' : gmap string Q) (v : Q) :
  (forall k, sel k e = String.eqb (key e) k) ->
  d !! key e = Some v ->
  raised_by sel links (<[key e := v + l_value e]> d) d' ->
  raised_by sel (e :: links) d d'.
Proof.
  intros Hsel Hv H k. specialize (H k).
  pose proof (flow_of_cons (sel k) e links) as Hf. rewrite Hsel in Hf.
  destruct (String.eqb_spec (key e) k) as [<- | Hne].
  - rewrite lookup_insert_eq in H. rewrite Hv.
    destruct H as (v' & Hv' & Heq). exists v'. split; [exact Hv' |].
    rewrite Heq, Hf. lra.
  - rewrite lookup_insert_ne in H by exact Hne.
    destruct (d !! k) as [w |]; [| exact H].
    destruct H as (v' & Hv' & Heq). exists v'. split; [exact Hv' |].
    rewrite Heq, Hf. lra.
Qed.

Lemma sum_flows_spec (links : list link) :
  forall I O I' O',
    sum_flows links I O = Ok (I', O') ->
    raised_by into_node links I I' /\ raised_by from_node links O O'.
Proof.
  induction links as [| e links IH]; intros I O I' O' H; simpl in H.
  - inversion H; subst. split; intros k; unfold flow_of; simpl;
      (destruct (_ !! k) as [v |]; [| reflexivity]);
      exists v; (split; [reflexivity | rewrite sumQ_nil; lra]).
  - apply bind_Ok in H. destruct H as (o & Ho & H).
    apply bind_Ok in H. destruct H as (i & Hi & H).
    apply getitem_Ok in Ho, Hi.
    destruct (IH _ _ _ _ H) as [HI HO]. split.
    + eapply (raised_by_step into_node l_target); eauto.
    + eapply (raised_by_step from_node l_source); eauto.
Qed.

Lemma thickness_bezier (x0 y0 x1 y1 w0 w1 b : Q) :
  thickness_out (_bezier_ribbon x0 y0 x1 y1 w0 w1 b) == w0 /\
  thickness_in (_bezier_ribbon x0 y0 x1 y1 w0 w1 b) == w1.
Proof. unfold thickness_out, thickness_in; simpl. split; ring. Qed.

Lemma draw_links_spec (links : list link) :
  forall NL u w b OO IO paths ps,
    draw_links links NL u w b OO IO paths = Ok ps ->
    exists new, ps = paths ++ new /\ Forall2 (ribbon_of u) links new.
Proof.
  induction links as [| e links IH]; intros NL u w b OO IO paths ps H;
    simpl in H.
  - inversion H; subst. exists []. rewrite app_nil_r. split; constructor.
  - apply bind_Ok in H. destruct H as (s & _ & H).
    apply bind_Ok in H. destruct H as (t & _ & H).
    apply bind_Ok in H. destruct H as (oo & _ & H).
    apply bind_Ok in H. destruct H as (io & _ & H).
    destruct (IH _ _ _ _ _ _ _ _ H) as (new & -> & Hnew).
    eexists (_ :: new). rewrite <- app_assoc. split; [reflexivity |].
    constructor; [| exact Hnew]. apply thickness_bezier.
Qed.

Lemma ribbons_where_sum (sel : link -> bool) (u : Q) (links : list link)
    (paths : list (list (Q * Q))) :
  Forall2 (ribbon_of u) links paths ->
  sumQ (map thickness_out (ribbons_where sel links paths))
    == flow_of sel links * u /\
  sumQ (map thickness_in (ribbons_where sel links paths))
    == flow_of sel links * u.
Proof.
  induction 1 as [| e path links paths [Ho Hi] _ [IHo IHi]].
  - unfold ribbons_where, flow_of; simpl. rewrite sumQ_nil. split; lra.
  - rewrite flow_of_cons. unfold ribbons_where in *. simpl.
    destruct (sel e); simpl.
    + rewrite !sumQ_cons, IHo, IHi, Ho, Hi. split; ring.
    + rewrite IHo, IHi. split; ring.
Qed.

(** *** The layout is computed for every validated input *)

Lemma zero_sums_from (nodes : list node) (d : gmap string Q) (k : string) :
  fold_left (fun d n => <[n_id n := 0]> d) nodes d !! k =
  if decide (k ∈ map n_id nodes) then Some 0 else d !! k.
Proof.
  revert d. induction nodes as [| n nodes IH]; intros d; cbn [fold_left map].
  - destruct (decide (k ∈ [])) as [H | H]; [inversion H | reflexivity].
  - rewrite IH.
    destruct (decide (k ∈ map n_id nodes)) as [Hin | Hout];
      destruct (decide (k ∈ n_id n :: map n_id nodes)) as [Hin' | Hout'].
    + reflexivity.
    + exfalso. apply Hout'. right. exact Hin.
    + apply elem_of_cons in Hin'. destruct Hin' as [-> | Hin'];
        [apply lookup_insert_eq | contradiction].
    + apply lookup_insert_ne. intros <-. apply Hout'. left.
Qed.

Lemma zero_sums_is_Some (nodes : list node) (k : string) :
  k ∈ map n_id nodes -> zero_sums nodes !! k = Some 0.
Proof.
  intros Hk. unfold zero_sums. rewrite zero_sums_from.
  case_decide; [reflexivity | contradiction].
Qed.

Lemma validate_nodes_dom (nodes : list node) :
  forall c cols,
    validate_nodes nodes c = Ok cols ->
    forall k, is_Some (cols !! k) -> is_Some (c !! k) \/ k ∈ map n_id nodes.
Proof.
  induction nodes as [| n nodes IH]; intros c cols H k Hk; simpl in H.
  - inversion H; subst. left. exact Hk.
  - apply bind_Ok in H. destruct H as (_ & _ & H).
    destruct (IH _ _ H k Hk) as [Hc | Hin].
    + destruct (decide (n_id n = k)) as [Heq | Hne].
      * right. simpl. rewrite Heq. left.
      * rewrite lookup_insert_ne in Hc by exact Hne. left. exact Hc.
    + right. simpl. right. exact Hin.
Qed.

Lemma validate_links_inv (links : list link) (cols : gmap string Z) :
  validate_links links cols = Ok tt ->
  forall e, e ∈ links ->
    is_Some (cols !! l_source e) /\ is_Some (cols !! l_target e).
Proof.
  induction links as [| e0 links IH]; intros H e He; simpl in H.
  - inversion He.
  - destruct (cols !! l_source e0) as [cs |] eqn:Hs; [| discriminate].
    destruct (cols !! l_target e0) as [ct |] eqn:Ht; [| discriminate].
    apply bind_Ok in H. destruct H as (_ & _ & H).
    apply elem_of_cons in He. destruct He as [-> | He].
    + rewrite Hs, Ht. split; eexists; reflexivity.
    + apply IH; assumption.
Qed.

Lemma validate_sankey_inv (nodes : list node) (links : list link) :
  validate_sankey nodes links = Ok tt ->
  forall e, e ∈ links ->
    l_source e ∈ map n_id nodes /\ l_target e ∈ map n_id nodes.
Proof.
  unfold validate_sankey. intros H e He.
  apply bind_Ok in H. destruct H as (_ & _ & H).
  apply bind_Ok in H. destruct H as (_ & _ & H).
  apply bind_Ok in H. destruct H as (cols & Hcols & H).
  destruct (validate_links_inv _ _ H e He) as [Hs Ht].
  split.
  - destruct (validate_nodes_dom _ _ _ Hcols _ Hs) as [Hc | Hin];
      [rewrite lookup_empty in Hc; destruct Hc; discriminate | exact Hin].
  - destruct (validate_nodes_dom _ _ _ Hcols _ Ht) as [Hc | Hin];
      [rewrite lookup_empty in Hc; destruct Hc; discriminate | exact Hin].
Qed.

Lemma sum_flows_ok (links : list link) :
  forall I O,
    (forall e, e ∈ links ->
       is_Some (O !! l_source e) /\ is_Some (I !! l_target e)) ->
    exists I' O', sum_flows links I O = Ok (I', O').
Proof.
  induction links as [| e links IH]; intros I O H; cbn [sum_flows].
  - eauto.
  - destruct (H e) as [[o Ho] [i Hi]]; [left |].
    apply getitem_Ok in Ho, Hi. rewrite Ho. cbn [mbind result_bind].
    rewrite Hi. cbn [mbind result_bind].
    apply IH. intros e' He'. destruct (H e') as [Hs Ht]; [right; exact He' |].
    split; rewrite lookup_insert_is_Some; 
      match goal with |- ?a = ?b \/ _ => destruct (decide (a = b)); auto end.
Qed.

Lemma raised_by_is_Some (sel : string -> link -> bool) (links : list link)
    (d d' : gmap string Q) (k : string) :
  raised_by sel links d d' -> is_Some (d !! k) -> is_Some (d' !! k).
Proof.
  intros H [v Hv]. specialize (H k). rewrite Hv in H.
  destruct H as (v' & Hv' & _). eauto.
Qed.

Lemma size_units_ok (nodes : list node) (I O : gmap string Q) :
  (forall n, n ∈ nodes -> is_Some (I !! n_id n) /\ is_Some (O !! n_id n)) ->
  forall d, exists U,
    size_units nodes I O d = Ok U /\
    forall k, is_Some (d !! k) \/ k ∈ map n_id nodes -> is_Some (U !! k).
Proof.
  induction nodes as [| n nodes IH]; intros H d; cbn [size_units].
  - exists d. split; [reflexivity |]. intros k [Hk | Hk]; [exact Hk | inversion Hk].
  - destruct (H n) as [[i Hi] [o Ho]]; [left |].
    apply getitem_Ok in Ho, Hi. rewrite Hi. cbn [mbind result_bind].
    rewrite Ho. cbn [mbind result_bind].
    destruct (IH (fun m Hm => H m (list_elem_of_further _ _ _ Hm))
                (<[n_id n := Qmax (Qmax i o) 0]> d)) as (U & HU & Hdom).
    exists U. split; [exact HU |]. intros k Hk. apply Hdom.
    rewrite lookup_insert_is_Some.
    destruct (decide (n_id n = k)) as [-> | Hne]; [auto |].
    destruct Hk as [Hk | Hk]; [auto |].
    apply elem_of_cons in Hk. destruct Hk as [-> | Hk]; [congruence | auto].
Qed.

Lemma read_all_ok (d : gmap string Q) (f : Q -> Q) (ns : list node) :
  (forall n, n ∈ ns -> is_Some (d !! n_id n)) ->
  exists vs, read_all d f ns = Ok vs /\ length vs = length ns.
Proof.
  induction ns as [| n ns IH]; intros H; cbn [read_all].
  - exists []. split; reflexivity.
  - destruct (H n) as [v Hv]; [left |].
    apply getitem_Ok in Hv. rewrite Hv. cbn [mbind result_bind].
    destruct IH as (vs & -> & Hlen).
    { intros m Hm. apply H. right. exact Hm. }
    cbn [mbind result_bind]. exists (f v :: vs).
    split; [reflexivity | simpl; congruence].
Qed.

Lemma group_step_mono (m : gmap Z (list node)) (n : node) (c : Z)
    (l : list node) :
  m !! c = Some l ->
  exists l', <[n_col n := default [] (m !! n_col n) ++ [n]]> m !! c = Some l' /\
             l ⊆ l'.
Proof.
  intros Hl. destruct (decide (n_col n = c)) as [-> | Hne].
  - rewrite lookup_insert_eq, Hl. simpl. eexists. split; [reflexivity |].
    set_solver.
  - rewrite lookup_insert_ne by exact Hne. exists l. split; [exact Hl | done].
Qed.

Lemma group_fold_mono (nodes : list node) :
  forall (m : gmap Z (list node)) (c : Z) (l : list node),
    m !! c = Some l ->
    exists l',
      fold_left
        (fun by_col n =>
           <[n_col n := default [] (by_col !! n_col n) ++ [n]]> by_col)
        nodes m !! c = Some l' /\ l ⊆ l'.
Proof.
  induction nodes as [| n nodes IH]; intros m c l Hl; simpl.
  - exists l. split; [exact Hl | done].
  - destruct (group_step_mono m n c l Hl) as (l1 & Hl1 & Hsub).
    destruct (IH _ _ _ Hl1) as (l2 & Hl2 & Hsub2).
    exists l2. split; [exact Hl2 | set_solver].
Qed.

Lemma group_by_col_cover (nodes : list node) (n : node) :
  n ∈ nodes ->
  exists l, group_by_col nodes !! n_col n = Some l /\ n ∈ l.
Proof.
  unfold group_by_col. generalize (∅ : gmap Z (list node)).
  induction nodes as [| n0 nodes IH]; intros m Hn; [inversion Hn |].
  apply elem_of_cons in Hn. simpl. destruct Hn as [-> | Hn].
  - destruct (group_fold_mono nodes
                (<[n_col n0 := default [] (m !! n_col n0) ++ [n0]]> m)
                (n_col n0) _ (lookup_insert_eq _ _ _)) as (l & Hl & Hsub).
    exists l. split; [exact Hl | set_solver].
  - apply IH. exact Hn.
Qed.

Lemma group_by_col_sub (nodes : list node) (c : Z) (l : list node) :
  group_by_col nodes !! c = Some l -> l ⊆ nodes.
Proof.
  unfold group_by_col.
  assert (Hgen : forall (ns : list node) (m : gmap Z (list node)),
             (forall c l, m !! c = Some l -> l ⊆ nodes) -> ns ⊆ nodes ->
             forall c l,
               fold_left
                 (fun by_col n =>
                    <[n_col n := default [] (by_col !! n_col n) ++ [n]]> by_col)
                 ns m !! c = Some l -> l ⊆ nodes).
  { induction ns as [| n ns IH]; intros m Hm Hns c' l' Hl; simpl in Hl.
    - eapply Hm. exact Hl.
    - assert (Hn : n ∈ nodes) by (apply Hns; left).
      refine (IH _ _ _ c' l' Hl).
      + intros c0 l0 Hl0. destruct (decide (n_col n = c0)) as [<- | Hne].
        * rewrite lookup_insert_eq in Hl0. inversion Hl0; subst.
          intros x Hx. apply elem_of_app in Hx. destruct Hx as [Hx | Hx].
          -- destruct (m !! n_col n) as [l1 |] eqn:E; simpl in Hx.
             ++ exact (Hm _ _ E x Hx).
             ++ inversion Hx.
          -- apply list_elem_of_singleton in Hx. subst x. exact Hn.
        * rewrite lookup_insert_ne in Hl0 by exact Hne. eapply Hm. exact Hl0.
      + intros x Hx. apply Hns. right. exact Hx. }
  intros Hl. eapply (Hgen nodes ∅); [| done | exact Hl].
  intros c0 l0 H0. rewrite lookup_empty in H0. discriminate.
Qed.

Lemma sorted_cols_elem (by_col : gmap Z (list node)) (c : Z) :
  c ∈ sorted_cols by_col <-> is_Some (by_col !! c).
Proof.
  unfold sorted_cols. rewrite merge_sort_Permutation.
  rewrite list_elem_of_fmap. split.
  - intros ([c' l] & -> & Hin). apply elem_of_map_to_list in Hin.
    simpl. eauto.
  - intros [l Hl]. exists (c, l). split; [reflexivity |].
    apply elem_of_map_to_list. exact Hl.
Qed.

Lemma col_sums_ok (cols : list Z) (by_col : gmap Z (list node))
    (U : gmap string Q) :
  cols_covered cols by_col U -> exists ss, col_sums cols by_col U = Ok ss.
Proof.
  induction cols as [| c cols IH]; intros H; cbn [col_sums].
  - eauto.
  - destruct (read_all_ok U (fun v => v) (default [] (by_col !! c)))
      as (vs & -> & _).
    { apply H. left. }
    cbn [mbind result_bind].
    destruct IH as (ss & ->).
    { intros c' Hc'. apply H. right. exact Hc'. }
    cbn [mbind result_bind]. eauto.
Qed.

Lemma stack_from_length (sizes : list Q) (pad y : Q) :
  length (stack_from sizes pad y) = length sizes.
Proof.
  revert y. induction sizes as [| h sizes IH]; intros y; simpl;
    [reflexivity | f_equal; apply IH].
Qed.

Lemma place_nodes_dom (ns : list node) :
  forall (hs ys : list Q) (x yo : Q) (NL : gmap string box),
    length hs = length ns -> length ys = length ns ->
    (forall k, is_Some (NL !! k) ->
               is_Some (place_nodes ns hs ys x yo NL !! k)) /\
    (forall n, n ∈ ns -> is_Some (place_nodes ns hs ys x yo NL !! n_id n)).
Proof.
  induction ns as [| n ns IH]; intros hs ys x yo NL Hh Hy.
  - simpl. split; [auto | intros n Hn; inversion Hn].
  - destruct hs as [| h hs]; [discriminate |].
    destruct ys as [| y ys]; [discriminate |].
    simpl in Hh, Hy. injection Hh as Hh. injection Hy as Hy.
    cbn [place_nodes].
    destruct (IH hs ys x yo (<[n_id n := mkBox x (y + yo) h]> NL) Hh Hy)
      as [Hkeep Hnew].
    split.
    + intros k Hk. apply Hkeep. rewrite lookup_insert_is_Some.
      destruct (decide (n_id n = k)); auto.
    + intros m Hm. apply elem_of_cons in Hm. destruct Hm as [-> | Hm].
      * apply Hkeep. rewrite lookup_insert_eq. eauto.
      * apply Hnew. exact Hm.
Qed.

Lemma place_cols_ok (cols : list Z) (by_col : gmap Z (list node))
    (U : gmap string Q) (u usable pad : Q) (xs : list Q) :
  cols_covered cols by_col U ->
  forall (i : nat) (NL : gmap string box),
    exists NL',
      place_cols cols i by_col U u usable pad xs NL = Ok NL' /\
      (forall k, is_Some (NL !! k) -> is_Some (NL' !! k)) /\
      cols_covered cols by_col NL'.
Proof.
  induction cols as [| c cols IH]; intros H i NL; cbn [place_cols].
  - exists NL. split_and!; [reflexivity | auto |].
    intros c Hc. inversion Hc.
  - destruct (read_all_ok U (fun v => v * u) (default [] (by_col !! c)))
      as (hs & -> & Hlen).
    { apply H. left. }
    cbn [mbind result_bind].
    set (ys := _stack_positions hs (pad * 1.5)).
    assert (Hys : length ys = length (default [] (by_col !! c))).
    { unfold ys, _stack_positions. rewrite stack_from_length. exact Hlen. }
    match goal with
    | |- context [place_nodes ?ns ?hs' ?ys' ?x ?yo NL] =>
        destruct (place_nodes_dom ns hs' ys' x yo NL Hlen Hys) as [Hkeep Hnew];
        set (NL1 := place_nodes ns hs' ys' x yo NL) in *
    end.
    destruct (IH (fun c' Hc' => H c' (list_elem_of_further _ _ _ Hc'))
                (S i) NL1) as (NL' & HNL' & Hkeep' & Hcov).
    exists NL'. split_and!.
    + exact HNL'.
    + intros k Hk. apply Hkeep', Hkeep, Hk.
    + intros c' Hc' n Hn. apply elem_of_cons in Hc'.
      destruct Hc' as [-> | Hc'].
      * apply Hkeep', Hnew, Hn.
      * eapply Hcov; eassumption.
Qed.

Lemma draw_links_ok (links : list link) (NL : gmap string box)
    (u w b : Q) :
  (forall e, e ∈ links ->
     is_Some (NL !! l_source e) /\ is_Some (NL !! l_target e)) ->
  forall (OO IO : gmap string Q) (paths : list (list (Q * Q))),
    (forall e, e ∈ links ->
       is_Some (OO !! l_source e) /\ is_Some (IO !! l_target e)) ->
    exists ps, draw_links links NL u w b OO IO paths = Ok ps.
Proof.
  induction links as [| e links IH]; intros HNL OO IO paths Hoff;
    cbn [draw_links].
  - eauto.
  - destruct (HNL e) as [[s Hs] [t Ht]]; [left |].
    destruct (Hoff e) as [[oo Hoo] [io Hio]]; [left |].
    apply getitem_Ok in Hs, Ht, Hoo, Hio.
    rewrite Hs. cbn [mbind result_bind]. rewrite Ht. cbn [mbind result_bind].
    rewrite Hoo. cbn [mbind result_bind]. rewrite Hio. cbn [mbind result_bind].
    apply IH.
    + intros e' He'. apply HNL. right. exact He'.
    + intros e' He'. destruct (Hoff e') as [H1 H2]; [right; exact He' |].
      split; rewrite lookup_insert_is_Some;
        match goal with |- ?a = ?b \/ _ => destruct (decide (a = b)); auto end.
Qed.

Lemma id_of_node (nodes : list node) (k : string) :
  k ∈ map n_id nodes -> exists n, n ∈ nodes /\ n_id n = k.
Proof.
  intros Hk. apply list_elem_of_fmap in Hk. destruct Hk as (n & -> & Hn). eauto.
Qed.

Lemma grouped_covered {A : Type} (nodes : list node) (d : gmap string A) :
  (forall n, n ∈ nodes -> is_Some (d !! n_id n)) ->
  cols_covered (sorted_cols (group_by_col nodes)) (group_by_col nodes) d.
Proof.
  intros H c _ n Hn.
  destruct (group_by_col nodes !! c) as [l |] eqn:E; simpl in Hn;
    [| inversion Hn].
  apply H. eapply group_by_col_sub; eassumption.
Qed.

Lemma covered_grouped {A : Type} (nodes : list node) (d : gmap string A) :
  cols_covered (sorted_cols (group_by_col nodes)) (group_by_col nodes) d ->
  forall n, n ∈ nodes -> is_Some (d !! n_id n).
Proof.
  intros H n Hn. destruct (group_by_col_cover nodes n Hn) as (l & Hl & Hnl).
  apply (H (n_col n)).
  - apply sorted_cols_elem. eauto.
  - rewrite Hl. exact Hnl.
Qed.

(** C2.  For every input that [validate_sankey] accepts and whose
    greatest column total is not zero (otherwise the division by
    [global_max] raises and there is no ribbon), [build] computes the
    layout, and in it, for every node, the ribbons leaving the node are
    together as thick as the node's total outflow times [unit_to_px]
    and the ribbons entering it as thick as its total inflow times
    [unit_to_px]. *)
Theorem sankey_flow_conservation (nodes : list node) (links : list link)
    (opt : options) :
  validate_sankey nodes links = Ok tt ->
  flows_nonzero nodes links ->
  exists lay, build nodes links opt = Ok lay /\ conserved nodes links lay.
Proof.
  intros Hval Hnz.
  pose proof (validate_sankey_inv nodes links Hval) as Hends.
  destruct (sum_flows_ok links (zero_sums nodes) (zero_sums nodes))
    as (I & O & Hsum).
  { intros e He. destruct (Hends e He) as [Hs Ht].
    rewrite (zero_sums_is_Some _ _ Hs), (zero_sums_is_Some _ _ Ht). eauto. }
  destruct (sum_flows_spec _ _ _ _ _ Hsum) as [HI HO].
  assert (Hzero : forall n, n ∈ nodes -> zero_sums nodes !! n_id n = Some 0).
  { intros n Hn. apply zero_sums_is_Some, list_elem_of_fmap. eauto. }
  destruct (size_units_ok nodes I O) with (d := (∅ : gmap string Q))
    as (U & HU & HUdom).
  { intros n Hn. split; eapply raised_by_is_Some; eauto;
      rewrite (Hzero n Hn); eauto. }
  assert (HUn : forall n, n ∈ nodes -> is_Some (U !! n_id n)).
  { intros n Hn. apply HUdom. right. apply list_elem_of_fmap. eauto. }
  destruct (col_sums_ok _ _ _ (grouped_covered nodes U HUn)) as (ss & Hss).
  assert (Hg : global_max_of nodes links = Ok (max_or_one ss)).
  { unfold global_max_of. rewrite Hsum. cbn [mbind result_bind].
    rewrite HU. cbn [mbind result_bind]. rewrite Hss. reflexivity. }
  specialize (Hnz _ Hg).
  assert (Hdiv : forall a, py_div a (max_or_one ss) = Ok (a / max_or_one ss)).
  { intros a. unfold py_div.
    destruct (Qeq_bool (max_or_one ss) 0) eqn:E; [| reflexivity].
    apply Qeq_bool_iff in E. contradiction. }
  set (usable := inject_Z (height opt) * 0.85).
  set (u := usable / max_or_one ss).
  destruct (place_cols_ok _ _ _ u usable (node_pad opt)
              (linspace 0.1 0.9 (length (sorted_cols (group_by_col nodes))))
              (grouped_covered nodes U HUn) 0%nat ∅)
    as (NL & HNL & _ & Hcov).
  pose proof (covered_grouped nodes NL Hcov) as HNLn.
  destruct (draw_links_ok links NL u (node_width_frac opt * 1.2) (bend opt))
    with (OO := zero_sums nodes) (IO := zero_sums nodes)
         (paths := ([] : list (list (Q * Q)))) as (ps & Hps).
  { intros e He. destruct (Hends e He) as [Hs Ht].
    apply id_of_node in Hs, Ht.
    destruct Hs as (ns & Hns & <-), Ht as (nt & Hnt & <-). auto. }
  { intros e He. destruct (Hends e He) as [Hs Ht].
    rewrite (zero_sums_is_Some _ _ Hs), (zero_sums_is_Some _ _ Ht). eauto. }
  exists (mkLayout I O u NL ps). split.
  - unfold build. rewrite Hval. cbn [mbind result_bind].
    rewrite Hsum. cbn [mbind result_bind]. rewrite HU. cbn [mbind result_bind].
    rewrite Hss. cbn [mbind result_bind]. rewrite Hdiv. cbn [mbind result_bind].
    fold usable. fold u. rewrite HNL. cbn [mbind result_bind].
    rewrite Hps. reflexivity.
  - intros n Hn. simpl.
    pose proof (HO (n_id n)) as HOn. pose proof (HI (n_id n)) as HIn.
    rewrite (Hzero n Hn) in HOn, HIn.
    destruct HOn as (o & Ho & Hoeq), HIn as (i & Hi & Hieq).
    exists o, i. split_and!; [exact Ho | exact Hi | lra | lra | |].
    + destruct (draw_links_spec _ _ _ _ _ _ _ _ _ Hps) as (new & -> & Hnew).
      simpl. destruct (ribbons_where_sum (from_node (n_id n)) u _ _ Hnew)
        as [Hout _].
      rewrite Hout, Hoeq. ring.
    + destruct (draw_links_spec _ _ _ _ _ _ _ _ _ Hps) as (new & -> & Hnew).
      simpl. destruct (ribbons_where_sum (into_node (n_id n)) u _ _ Hnew)
        as [_ Hin].
      rewrite Hin, Hieq. ring.
Qed.

(** A in column 0 feeds B (value 3) and C (value 7) in column 1. *)
Lemma sankey_flow_conservation_witness :
  validate_sankey [mkNode "A" 0; mkNode "B" 1; mkNode "C" 1]
    [mkLink "A" "B" 3; mkLink "A" "C" 7] = Ok tt /\
  flows_nonzero [mkNode "A" 0; mkNode "B" 1; mkNode "C" 1]
    [mkLink "A" "B" 3; mkLink "A" "C" 7] /\
  exists lay,
    build [mkNode "A" 0; mkNode "B" 1; mkNode "C" 1]
      [mkLink "A" "B" 3; mkLink "A" "C" 7] (mkOptions 640 0.035 6 0.35)
    = Ok lay /\
    conserved [mkNode "A" 0; mkNode "B" 1; mkNode "C" 1]
      [mkLink "A" "B" 3; mkLink "A" "C" 7] lay.
Proof.
  assert (Hval : validate_sankey [mkNode "A" 0; mkNode "B" 1; mkNode "C" 1]
                   [mkLink "A" "B" 3; mkLink "A" "C" 7] = Ok tt)
    by (vm_compute; reflexivity).
  assert (Hnz : flows_nonzero [mkNode "A" 0; mkNode "B" 1; mkNode "C" 1]
                  [mkLink "A" "B" 3; mkLink "A" "C" 7]).
  { intros g Hg. vm_compute in Hg. injection Hg as <-. discriminate. }
  split; [exact Hval |]. split; [exact Hnz |].
  exact (sankey_flow_conservation _ _ _ Hval Hnz).
Defined.

End SankeyFacts.

(** ** Graph lanes *)
Section FlowFacts.
Import Flow.

Lemma fold_insert_is_Some {N A : Type} (key : N -> string) (f : N -> A)
    (l : list N) (d : gmap string A) (k : string) :
  is_Some (fold_left (fun d n => <[key n := f n]> d) l d !! k) <->
  is_Some (d !! k) \/ k ∈ map key l.
Proof.
  revert d. induction l as [| n l IH]; intros d; cbn [fold_left map].
  - split; [auto | intros [H | H]; [exact H | inversion H]].
  - rewrite IH, lookup_insert_is_Some, elem_of_cons.
    destruct (decide (key n = k)); intuition congruence.
Qed.

Lemma fold_insert_const {N A : Type} (key : N -> string) (a : A)
    (l : list N) (d : gmap string A) (k : string) (v : A) :
  fold_left (fun d n => <[key n := a]> d) l d !! k = Some v ->
  v = a \/ d !! k = Some v.
Proof.
  revert d. induction l as [| n l IH]; intros d H; cbn [fold_left] in H.
  - right. exact H.
  - destruct (IH _ H) as [Hv | Hv]; [left; exact Hv |].
    destruct (decide (key n = k)) as [<- | Hne].
    + rewrite lookup_insert_eq in Hv. left. congruence.
    + rewrite lookup_insert_ne in Hv by exact Hne. right. exact Hv.
Qed.

(** *** The lanes are computed for every validated graph *)

Lemma validate_edges_inv (edges : list edge) (ids : gset string) :
  validate_edges edges ids = Ok tt ->
  forall e, e ∈ edges -> e_from e ∈ ids /\ e_to e ∈ ids.
Proof.
  induction edges as [| e0 edges IH]; intros H e He; cbn [validate_edges] in H.
  - inversion He.
  - apply bind_Ok in H. destruct H as ([] & Hreq & H).
    apply elem_of_cons in He. destruct He as [Heq | He]; [subst e | auto].
    unfold require in Hreq.
    destruct (bool_decide (e_from e0 ∈ ids)) eqn:E1;
      destruct (bool_decide (e_to e0 ∈ ids)) eqn:E2; try discriminate.
    apply bool_decide_eq_true in E1, E2. auto.
Qed.

Lemma validate_flow_inv (nodes : list node) (edges : list edge) :
  validate_flow nodes edges = Ok tt ->
  forall e, e ∈ edges ->
    e_from e ∈ map n_id nodes /\ e_to e ∈ map n_id nodes.
Proof.
  unfold validate_flow, node_ids. intros H e He.
  apply bind_Ok in H. destruct H as (_ & _ & H).
  destruct (validate_edges_inv _ _ H e He) as [H1 H2].
  rewrite !elem_of_list_to_set in *. auto.
Qed.

Lemma fill_preds_spec (edges : list edge) :
  forall P0,
    (forall e, e ∈ edges -> is_Some (P0 !! e_to e)) ->
    exists P,
      fill_preds edges P0 = Ok P /\
      forall k,
        P !! k = (fun ps0 => ps0 ++ sources_of k edges) <$> (P0 !! k).
Proof.
  induction edges as [| e edges IH]; intros P0 H; cbn [fill_preds].
  - exists P0. split; [reflexivity |]. intros k. unfold sources_of; simpl.
    destruct (P0 !! k); simpl; [rewrite app_nil_r |]; reflexivity.
  - destruct (H e) as [ps Hps]; [left |].
    pose proof Hps as Hget. apply getitem_Ok in Hget. rewrite Hget.
    cbn [mbind result_bind].
    destruct (IH (<[e_to e := ps ++ [e_from e]]> P0)) as (P & HP & Hspec).
    { intros e' He'. rewrite lookup_insert_is_Some.
      destruct (decide (e_to e = e_to e')); [auto |].
      right. split; [assumption |]. apply H. right. exact He'. }
    exists P. split; [exact HP |]. intros k. rewrite Hspec.
    unfold sources_of. cbn [List.filter].
    destruct (String.eqb_spec (e_to e) k) as [<- | Hne].
    + rewrite lookup_insert_eq, Hps. simpl. rewrite <- app_assoc. reflexivity.
    + rewrite lookup_insert_ne by exact Hne. reflexivity.
Qed.

Lemma sources_of_elem (k p : string) (edges : list edge) :
  p ∈ sources_of k edges <-> exists e, e ∈ edges /\ e_to e = k /\ e_from e = p.
Proof.
  unfold sources_of. rewrite list_elem_of_fmap. split.
  - intros (e & -> & He). apply list_elem_of_In, filter_In in He.
    destruct He as [He Hk]. apply String.eqb_eq in Hk.
    exists e. split_and!; [apply list_elem_of_In; exact He | exact Hk | reflexivity].
  - intros (e & He & Hk & <-). exists e. split; [reflexivity |].
    apply list_elem_of_In, filter_In. split; [apply list_elem_of_In; exact He |].
    apply String.eqb_eq. exact Hk.
Qed.

Lemma max_from_ok (lane : gmap string Z) (ps : list string) :
  (forall p, p ∈ ps -> is_Some (lane !! p)) ->
  forall cur, exists m, max_from lane ps cur = Ok m.
Proof.
  induction ps as [| p ps IH]; intros H cur; cbn [max_from].
  - eauto.
  - destruct (H p) as [v Hv]; [left |]. apply getitem_Ok in Hv. rewrite Hv.
    cbn [mbind result_bind]. apply IH. intros q Hq. apply H. right. exact Hq.
Qed.

Lemma max_from_spec (lane : gmap string Z) (ps : list string) :
  forall cur m,
    max_from lane ps cur = Ok m ->
    (cur <= m)%Z /\
    forall p, p ∈ ps -> exists v, lane !! p = Some v /\ (v <= m)%Z.
Proof.
  induction ps as [| p ps IH]; intros cur m H; cbn [max_from] in H.
  - inversion H; subst. split; [lia | intros p Hp; inversion Hp].
  - apply bind_Ok in H. destruct H as (v & Hv & H). apply getitem_Ok in Hv.
    destruct (IH _ _ H) as [Hle Hall]. split; [lia |].
    intros q Hq. apply elem_of_cons in Hq. destruct Hq as [-> | Hq].
    + exists v. split; [exact Hv | lia].
    + apply Hall. exact Hq.
Qed.

Lemma max_lane_spec (lane : gmap string Z) (ps : list string) (m : Z) :
  max_lane lane ps = Ok m ->
  forall p, p ∈ ps -> exists v, lane !! p = Some v /\ (v <= m)%Z.
Proof.
  destruct ps as [| p0 ps]; cbn [max_lane]; intros H; [discriminate |].
  apply bind_Ok in H. destruct H as (v & Hv & H). apply getitem_Ok in Hv.
  destruct (max_from_spec _ _ _ _ H) as [Hle Hall].
  intros q Hq. apply elem_of_cons in Hq. destruct Hq as [-> | Hq].
  - exists v. split; [exact Hv | exact Hle].
  - apply Hall. exact Hq.
Qed.

Lemma max_lane_ok (lane : gmap string Z) (ps : list string) :
  ps <> [] -> (forall p, p ∈ ps -> is_Some (lane !! p)) ->
  exists m, max_lane lane ps = Ok m.
Proof.
  destruct ps as [| p0 ps]; intros Hne H; [congruence |]. cbn [max_lane].
  destruct (H p0) as [v Hv]; [left |]. apply getitem_Ok in Hv. rewrite Hv.
  cbn [mbind result_bind]. apply max_from_ok.
  intros q Hq. apply H. right. exact Hq.
Qed.

Section LanePass.
Variable preds : gmap string (list string).
Variable lane_override : gmap string Z.

Lemma lane_pass_changed (nodes : list node) :
  forall lane lane' c,
    lane_pass nodes preds lane_override lane true = Ok (lane', c) -> c = true.
Proof.
  induction nodes as [| n nodes IH]; intros lane lane' c H; cbn [lane_pass] in H.
  - congruence.
  - case_bool_decide; [eauto |].
    apply bind_Ok in H. destruct H as (ps & _ & H).
    destruct ps as [| p ps]; [eauto |].
    apply bind_Ok in H. destruct H as (m & _ & H).
    apply bind_Ok in H. destruct H as (l & _ & H).
    destruct (l <=? m)%Z; eauto.
Qed.

(** A pass that reports no change has left the lanes alone, and every
    node it did not skip lies above all its predecessors. *)
Lemma lane_pass_unchanged (nodes : list node) :
  forall lane lane',
    lane_pass nodes preds lane_override lane false = Ok (lane', false) ->
    lane' = lane /\
    forall n, n ∈ nodes -> lane_override !! n_id n = None ->
      forall ps, preds !! n_id n = Some ps -> ps <> [] ->
        exists m l,
          max_lane lane ps = Ok m /\ lane !! n_id n = Some l /\ (m < l)%Z.
Proof.
  induction nodes as [| n nodes IH]; intros lane lane' H; cbn [lane_pass] in H.
  - split; [congruence | intros n Hn; inversion Hn].
  - case_bool_decide as Hov.
    + destruct (IH _ _ H) as [-> Hall]. split; [reflexivity |].
      intros n' Hn' Hnone. apply elem_of_cons in Hn'.
      destruct Hn' as [-> | Hn']; [| auto].
      rewrite Hnone in Hov. destruct Hov; discriminate.
    + apply bind_Ok in H. destruct H as (ps & Hps & H).
      apply getitem_Ok in Hps.
      destruct ps as [| p ps].
      * destruct (IH _ _ H) as [-> Hall]. split; [reflexivity |].
        intros n' Hn' Hnone ps' Hps' Hne. apply elem_of_cons in Hn'.
        destruct Hn' as [-> | Hn']; [congruence | eauto].
      * apply bind_Ok in H. destruct H as (m & Hm & H).
        apply bind_Ok in H. destruct H as (l & Hl & H).
        apply getitem_Ok in Hl.
        destruct (l <=? m)%Z eqn:Hle.
        -- apply lane_pass_changed in H. discriminate.
        -- apply Z.leb_gt in Hle.
           destruct (IH _ _ H) as [-> Hall]. split; [reflexivity |].
           intros n' Hn' Hnone ps' Hps' Hne. apply elem_of_cons in Hn'.
           destruct Hn' as [-> | Hn']; [| eauto].
           exists m, l. split_and!; [congruence | exact Hl | exact Hle].
Qed.

Lemma lane_pass_ok (nodes : list node) :
  forall lane changed,
    (forall n, n ∈ nodes ->
       is_Some (preds !! n_id n) /\ is_Some (lane !! n_id n)) ->
    (forall k ps p, preds !! k = Some ps -> p ∈ ps -> is_Some (lane !! p)) ->
    exists lane' c,
      lane_pass nodes preds lane_override lane changed = Ok (lane', c) /\
      forall k, is_Some (lane !! k) -> is_Some (lane' !! k).
Proof.
  induction nodes as [| n nodes IH]; intros lane changed Hn Hp;
    cbn [lane_pass].
  - eauto.
  - assert (Hn' : forall n0, n0 ∈ nodes ->
               is_Some (preds !! n_id n0) /\ is_Some (lane !! n_id n0))
      by (intros n0 H0; apply Hn; right; exact H0).
    case_bool_decide; [apply IH; assumption |].
    destruct (Hn n) as [[ps Hps] [l Hl]]; [left |].
    pose proof Hps as Hget. apply getitem_Ok in Hget. rewrite Hget.
    cbn [mbind result_bind].
    destruct ps as [| p ps]; [apply IH; assumption |].
    destruct (max_lane_ok lane (p :: ps)) as [m Hm]; [discriminate | eauto |].
    rewrite Hm. cbn [mbind result_bind].
    apply getitem_Ok in Hl. rewrite Hl. cbn [mbind result_bind].
    destruct (l <=? m)%Z; [| apply IH; assumption].
    assert (Hkeep : forall k, is_Some (lane !! k) ->
                      is_Some (<[n_id n := (m + 1)%Z]> lane !! k)).
    { intros k Hk. rewrite lookup_insert_is_Some.
      destruct (decide (n_id n = k)); auto. }
    destruct (IH (<[n_id n := (m + 1)%Z]> lane) true) as (lane' & c & H1 & H2).
    + intros n0 H0. destruct (Hn' n0 H0). auto.
    + intros k ps0 p0 Hk Hp0. eauto.
    + exists lane', c. split; [exact H1 | auto].
Qed.

Lemma lane_loop_ok (passes : nat) (nodes : list node) :
  forall lane,
    (forall n, n ∈ nodes ->
       is_Some (preds !! n_id n) /\ is_Some (lane !! n_id n)) ->
    (forall k ps p, preds !! k = Some ps -> p ∈ ps -> is_Some (lane !! p)) ->
    exists lane', lane_loop passes nodes preds lane_override lane = Ok lane'.
Proof.
  induction passes as [| passes IH]; intros lane Hn Hp; cbn [lane_loop].
  - eauto.
  - destruct (lane_pass_ok nodes lane false Hn Hp) as (lane1 & c & -> & Hkeep).
    cbn [mbind result_bind]. destruct c; [| eauto].
    apply IH.
    + intros n H0. destruct (Hn n H0). auto.
    + eauto.
Qed.

End LanePass.

Lemma initial_lanes_is_Some (nodes : list node) (ov : gmap string Z)
    (k : string) :
  k ∈ map n_id nodes -> is_Some (initial_lanes nodes ov !! k).
Proof.
  intros Hk. unfold initial_lanes.
  destruct (bool_decide (ov = ∅));
    [apply (fold_insert_is_Some n_id (fun _ => 0%Z))
    | apply (fold_insert_is_Some n_id
               (fun n => default 0%Z (ov !! n_id n)))];
    right; exact Hk.
Qed.

Lemma empty_preds_lookup (nodes : list node) (k : string) :
  k ∈ map n_id nodes -> empty_preds nodes !! k = Some [].
Proof.
  intros Hk. unfold empty_preds.
  destruct (proj2 (fold_insert_is_Some n_id (fun _ => @nil string)
                     nodes ∅ k) (or_intror Hk)) as [v Hv].
  destruct (fold_insert_const _ _ _ _ _ _ Hv) as [-> | H]; [exact Hv |].
  rewrite lookup_empty in H. discriminate.
Qed.

Lemma filled_preds (nodes : list node) (edges : list edge) :
  validate_flow nodes edges = Ok tt ->
  exists preds,
    fill_preds edges (empty_preds nodes) = Ok preds /\
    (forall k, k ∈ map n_id nodes -> preds !! k = Some (sources_of k edges)) /\
    (forall k ps, preds !! k = Some ps -> ps = sources_of k edges).
Proof.
  intros Hval. pose proof (validate_flow_inv _ _ Hval) as Hends.
  destruct (fill_preds_spec edges (empty_preds nodes)) as (P & HP & Hspec).
  { intros e He. destruct (Hends e He) as [_ Hto].
    rewrite (empty_preds_lookup _ _ Hto). eauto. }
  exists P. split_and!; [exact HP | |].
  - intros k Hk. rewrite Hspec, (empty_preds_lookup _ _ Hk). reflexivity.
  - intros k ps Hps. rewrite Hspec in Hps.
    destruct (empty_preds nodes !! k) as [ps0 |] eqn:E; [| discriminate].
    unfold empty_preds in E.
    destruct (fold_insert_const _ _ _ _ _ _ E) as [-> | H].
    + simpl in Hps. congruence.
    + rewrite lookup_empty in H. discriminate.
Qed.

Lemma path_rank (edges : list edge) (rank : string -> nat) :
  (forall e, e ∈ edges -> (rank (e_from e) < rank (e_to e))%nat) ->
  forall u v, path edges u v -> (rank u < rank v)%nat.
Proof.
  intros Hr u v Hp. induction Hp as [e He | e v He _ IH].
  - apply Hr, He.
  - specialize (Hr e He). lia.
Qed.

(** C3.  The code does not meet the claim on the chain
    [n00 -> n01 -> ... -> n13] with its nodes listed from the last to
    the first.  The graph is accepted by [validate_flow], has no cycle
    and no override; a pass moves every node up by one lane only, so
    after the 12 passes the lanes are [0, 1, ..., 12, 12]: [n12] and
    [n13] are both in lane 12 and the edge [n12 -> n13] does not
    ascend. *)
Theorem auto_lanes_long_chain :
  validate_flow chain_nodes chain_edges = Ok tt /\
  (forall e, e ∈ chain_edges -> ~ on_cycle chain_edges e) /\
  mkEdge "n12" "n13" ∈ chain_edges /\
  exists lane,
    _auto_lanes chain_nodes chain_edges ∅ = Ok lane /\
    map (fun i => lane !! i) chain_ids =
      map Some [0; 1; 2; 3; 4; 5; 6; 7; 8; 9; 10; 11; 12; 12]%Z /\
    ~ ascends lane (mkEdge "n12" "n13") /\
    ~ (forall (nodes : list node) (edges : list edge)
              (lane_override lane : gmap string Z),
          validate_flow nodes edges = Ok tt ->
          _auto_lanes nodes edges lane_override = Ok lane ->
          forall e, e ∈ edges -> lane_override !! e_to e = None ->
            ~ on_cycle edges e -> ascends lane e).
Proof.
  assert (Hval : validate_flow chain_nodes chain_edges = Ok tt)
    by (vm_compute; reflexivity).
  assert (Hacyclic : forall e, e ∈ chain_edges -> ~ on_cycle chain_edges e).
  { intros e He Hp. unfold on_cycle in Hp.
    apply (path_rank chain_edges chain_rank) in Hp.
    - assert (Hr : Forall (fun e => (chain_rank (e_from e) <
                                     chain_rank (e_to e))%nat) chain_edges).
      { unfold chain_edges, chain_ids. simpl. repeat constructor. }
      apply (proj1 (Forall_forall _ _) Hr) in He. lia.
    - apply Forall_forall. unfold chain_edges, chain_ids. simpl.
      repeat constructor. }
  assert (Hin : mkEdge "n12" "n13" ∈ chain_edges).
  { unfold chain_edges, chain_ids. simpl.
    do 12 apply list_elem_of_further. apply list_elem_of_here. }
  split_and!; [exact Hval | exact Hacyclic | exact Hin |].
  destruct (_auto_lanes chain_nodes chain_edges ∅) as [lane | ] eqn:E;
    [| vm_compute in E; discriminate].
  assert (Hlanes : map (fun i => lane !! i) chain_ids =
            map Some [0; 1; 2; 3; 4; 5; 6; 7; 8; 9; 10; 11; 12; 12]%Z).
  { assert (Hc : match _auto_lanes chain_nodes chain_edges ∅ with
                 | Ok l => map (fun i => l !! i) chain_ids
                 | Raise _ => []
                 end = map Some [0; 1; 2; 3; 4; 5; 6; 7; 8; 9; 10; 11; 12; 12]%Z)
      by (vm_compute; reflexivity).
    rewrite E in Hc. exact Hc. }
  assert (Hflat : ~ ascends lane (mkEdge "n12" "n13")).
  { intros (lu & lv & Hlu & Hlv & Hlt). simpl in Hlu, Hlv.
    pose proof (f_equal (fun l => l !! 12%nat) Hlanes) as H12.
    pose proof (f_equal (fun l => l !! 13%nat) Hlanes) as H13.
    cbn in H12, H13. rewrite Hlu in H12. rewrite Hlv in H13.
    inversion H12; inversion H13; subst. lia. }
  exists lane. split_and!; [reflexivity | exact Hlanes | exact Hflat |].
  intros H. apply Hflat.
  apply (H chain_nodes chain_edges ∅ lane Hval E _ Hin).
  - apply lookup_empty.
  - apply Hacyclic, Hin.
Qed.

(** *** What a pass may change *)

Lemma fold_insert_key {N A : Type} (key : N -> string) (g : string -> A)
    (l : list N) (d : gmap string A) (k : string) :
  fold_left (fun d n => <[key n := g (key n)]> d) l d !! k =
  if decide (k ∈ map key l) then Some (g k) else d !! k.
Proof.
  revert d. induction l as [| n l IH]; intros d; cbn [fold_left map].
  - destruct (decide (k ∈ [])) as [H | H]; [inversion H | reflexivity].
  - rewrite IH.
    destruct (decide (k ∈ map key l)) as [Hin | Hout];
      destruct (decide (k ∈ key n :: map key l)) as [Hin' | Hout'].
    + reflexivity.
    + exfalso. apply Hout'. right. exact Hin.
    + apply elem_of_cons in Hin'. destruct Hin' as [-> | Hin'];
        [apply lookup_insert_eq | contradiction].
    + apply lookup_insert_ne. intros <-. apply Hout'. left.
Qed.

Lemma initial_lanes_lookup (nodes : list node) (ov : gmap string Z)
    (k : string) :
  initial_lanes nodes ov !! k =
  if decide (k ∈ map n_id nodes) then Some (default 0%Z (ov !! k)) else None.
Proof.
  unfold initial_lanes. case_bool_decide as Hov.
  - rewrite (fold_insert_key n_id (fun _ => 0%Z)), Hov, lookup_empty.
    reflexivity.
  - rewrite (fold_insert_key n_id (fun k => default 0%Z (ov !! k))),
      lookup_empty. reflexivity.
Qed.

Section Passes.
Variable preds : gmap string (list string).
Variable lane_override : gmap string Z.

Lemma moved_up_trans (a b c : gmap string Z) (k : string) :
  moved_up preds lane_override a b k -> moved_up preds lane_override b c k ->
  moved_up preds lane_override a c k.
Proof.
  intros [Hab | (Hov & Hps & v & v' & Hv & Hv' & Hlt)] [Hbc | Hbc'].
  - left. congruence.
  - right. destruct Hbc' as (Hov & Hps & v & v' & Hv & Hv' & Hlt).
    split_and!; [exact Hov | exact Hps |]. exists v, v'.
    split_and!; [congruence | exact Hv' | exact Hlt].
  - right. split_and!; [exact Hov | exact Hps |]. exists v, v'.
    split_and!; [exact Hv | congruence | exact Hlt].
  - right. destruct Hbc' as (_ & _ & w & w' & Hw & Hw' & Hlt').
    split_and!; [exact Hov | exact Hps |]. exists v, w'.
    split_and!; [exact Hv | exact Hw' |]. assert (w = v') by congruence. lia.
Qed.

Lemma lane_pass_frame (nodes : list node) :
  forall lane c lane' c',
    lane_pass nodes preds lane_override lane c = Ok (lane', c') ->
    forall k, moved_up preds lane_override lane lane' k.
Proof.
  induction nodes as [| n nodes IH]; intros lane c lane' c' H k;
    cbn [lane_pass] in H.
  - inversion H; subst. left. reflexivity.
  - case_bool_decide as Hov; [eauto |].
    apply bind_Ok in H. destruct H as (ps & Hps & H). apply getitem_Ok in Hps.
    destruct ps as [| p ps]; [eauto |].
    apply bind_Ok in H. destruct H as (m & Hm & H).
    apply bind_Ok in H. destruct H as (l & Hl & H). apply getitem_Ok in Hl.
    destruct (l <=? m)%Z eqn:Hle; [| eauto].
    apply Z.leb_le in Hle.
    eapply moved_up_trans; [| eapply IH; exact H].
    destruct (decide (n_id n = k)) as [<- | Hne].
    + right. split_and!.
      * destruct (lane_override !! n_id n) eqn:E; [| reflexivity].
        exfalso. apply Hov. eauto.
      * eexists. split; [exact Hps | discriminate].
      * exists l, (m + 1)%Z. rewrite lookup_insert_eq.
        split_and!; [exact Hl | reflexivity | lia].
    + left. apply lookup_insert_ne. exact Hne.
Qed.

Lemma lane_loop_frame (passes : nat) (nodes : list node) :
  forall lane lane',
    lane_loop passes nodes preds lane_override lane = Ok lane' ->
    forall k, moved_up preds lane_override lane lane' k.
Proof.
  induction passes as [| passes IH]; intros lane lane' H k;
    cbn [lane_loop] in H.
  - inversion H; subst. left. reflexivity.
  - apply bind_Ok in H. destruct H as ([lane1 c] & Hpass & H).
    pose proof (lane_pass_frame _ _ _ _ _ Hpass k) as H1.
    destruct c.
    + eapply moved_up_trans; [exact H1 | eapply IH; exact H].
    + inversion H; subst. exact H1.
Qed.

End Passes.

(** A validated graph gets its lanes: the call returns, with the
    predecessor lists filled in. *)
Lemma auto_lanes_returns (nodes : list node) (edges : list edge)
    (ov : gmap string Z) :
  validate_flow nodes edges = Ok tt ->
  exists preds lane,
    fill_preds edges (empty_preds nodes) = Ok preds /\
    (forall k, k ∈ map n_id nodes -> preds !! k = Some (sources_of k edges)) /\
    (forall k ps, preds !! k = Some ps -> ps = sources_of k edges) /\
    lane_loop 12 nodes preds ov (initial_lanes nodes ov) = Ok lane /\
    _auto_lanes nodes edges ov = Ok lane.
Proof.
  intros Hval. pose proof (validate_flow_inv _ _ Hval) as Hends.
  destruct (filled_preds _ _ Hval) as (P & HP & Hin & Hall).
  destruct (lane_loop_ok P ov 12 nodes (initial_lanes nodes ov))
    as [lane Hlane].
  { intros n Hn.
    assert (Hk : n_id n ∈ map n_id nodes) by (apply list_elem_of_fmap; eauto).
    split; [rewrite (Hin _ Hk); eauto | apply initial_lanes_is_Some, Hk]. }
  { intros k ps p Hps Hp. apply Hall in Hps. subst ps.
    apply sources_of_elem in Hp. destruct Hp as (e & He & _ & <-).
    apply initial_lanes_is_Some. apply (Hends e He). }
  exists P, lane. split_and!; try assumption.
  unfold _auto_lanes. rewrite HP. exact Hlane.
Qed.

(** Lanes: every node gets one, and nothing else does. *)
Theorem auto_lanes_domain (nodes : list node) (edges : list edge)
    (lane_override : gmap string Z) :
  validate_flow nodes edges = Ok tt ->
  exists lane,
    _auto_lanes nodes edges lane_override = Ok lane /\
    forall k, is_Some (lane !! k) <-> k ∈ map n_id nodes.
Proof.
  intros Hval.
  destruct (auto_lanes_returns _ _ lane_override Hval)
    as (P & lane & _ & _ & _ & Hloop & Hlane).
  exists lane. split; [exact Hlane |]. intros k.
  pose proof (lane_loop_frame _ _ _ _ _ _ Hloop k) as Hk.
  pose proof (initial_lanes_lookup nodes lane_override k) as H0.
  destruct (decide (k ∈ map n_id nodes)) as [Hin | Hout].
  - split; [auto | intros _].
    destruct Hk as [-> | (_ & _ & v & v' & _ & -> & _)]; [rewrite H0 |]; eauto.
  - split; [| contradiction]. intros Hsome.
    destruct Hk as [Heq | (_ & _ & v & v' & Hv & _ & _)].
    + rewrite Heq, H0 in Hsome. destruct Hsome; discriminate.
    + rewrite H0 in Hv. discriminate.
Qed.

(** Lanes: an override wins.  A node with an entry in [lane_override]
    is returned in exactly that lane. *)
Theorem auto_lanes_keeps_overrides (nodes : list node) (edges : list edge)
    (lane_override : gmap string Z) :
  validate_flow nodes edges = Ok tt ->
  exists lane,
    _auto_lanes nodes edges lane_override = Ok lane /\
    forall n v, n ∈ nodes -> lane_override !! n_id n = Some v ->
      lane !! n_id n = Some v.
Proof.
  intros Hval.
  destruct (auto_lanes_returns _ _ lane_override Hval)
    as (P & lane & _ & _ & _ & Hloop & Hlane).
  exists lane. split; [exact Hlane |]. intros n v Hn Hov.
  pose proof (lane_loop_frame _ _ _ _ _ _ Hloop (n_id n)) as Hk.
  pose proof (initial_lanes_lookup nodes lane_override (n_id n)) as H0.
  destruct (decide (n_id n ∈ map n_id nodes)) as [_ | Hout];
    [| exfalso; apply Hout, list_elem_of_fmap; eauto].
  destruct Hk as [-> | (Hnone & _)]; [| congruence].
  rewrite H0, Hov. reflexivity.
Qed.

(** Lanes: a node without override is in lane 0 or higher, and in lane
    0 when no edge leads to it. *)
Theorem auto_lanes_start_at_zero (nodes : list node) (edges : list edge)
    (lane_override : gmap string Z) :
  validate_flow nodes edges = Ok tt ->
  exists lane,
    _auto_lanes nodes edges lane_override = Ok lane /\
    forall n, n ∈ nodes -> lane_override !! n_id n = None ->
      exists v,
        lane !! n_id n = Some v /\ (0 <= v)%Z /\
        ((forall e, e ∈ edges -> e_to e <> n_id n) -> v = 0%Z).
Proof.
  intros Hval.
  destruct (auto_lanes_returns _ _ lane_override Hval)
    as (P & lane & _ & Hin & Hall & Hloop & Hlane).
  exists lane. split; [exact Hlane |]. intros n Hn Hov.
  assert (Hid : n_id n ∈ map n_id nodes) by (apply list_elem_of_fmap; eauto).
  pose proof (lane_loop_frame _ _ _ _ _ _ Hloop (n_id n)) as Hk.
  pose proof (initial_lanes_lookup nodes lane_override (n_id n)) as H0.
  destruct (decide (n_id n ∈ map n_id nodes)) as [_ | Hout];
    [| contradiction].
  rewrite Hov in H0. simpl in H0.
  destruct Hk as [Heq | (_ & (ps & Hps & Hne) & v & v' & Hv & Hv' & Hlt)].
  - exists 0%Z. rewrite Heq, H0. split_and!; [reflexivity | lia | auto].
  - exists v'. rewrite H0 in Hv. inversion Hv; subst v.
    split_and!; [exact Hv' | lia |]. intros Hnone. exfalso.
    apply Hall in Hps. subst ps. destruct (sources_of (n_id n) edges) as [| p ps] eqn:E;
      [congruence |].
    assert (Hp : p ∈ sources_of (n_id n) edges) by (rewrite E; left).
    apply sources_of_elem in Hp. destruct Hp as (e & He & Hto & _).
    exact (Hnone e He Hto).
Qed.

(** *** Nodes listed in topological order *)

Lemma max_from_ext (lane lane' : gmap string Z) (ps : list string) :
  (forall p, p ∈ ps -> lane' !! p = lane !! p) ->
  forall cur, max_from lane' ps cur = max_from lane ps cur.
Proof.
  induction ps as [| p ps IH]; intros H cur; cbn [max_from]; [reflexivity |].
  unfold getitem. rewrite (H p) by left.
  destruct (lane !! p); cbn [mbind result_bind]; [| reflexivity].
  apply IH. intros q Hq. apply H. right. exact Hq.
Qed.

Lemma max_lane_ext (lane lane' : gmap string Z) (ps : list string) :
  (forall p, p ∈ ps -> lane' !! p = lane !! p) ->
  max_lane lane' ps = max_lane lane ps.
Proof.
  destruct ps as [| p ps]; intros H; cbn [max_lane]; [reflexivity |].
  unfold getitem. rewrite (H p) by left.
  destruct (lane !! p); cbn [mbind result_bind]; [| reflexivity].
  apply max_from_ext. intros q Hq. apply H. right. exact Hq.
Qed.

Lemma max_from_attained (lane : gmap string Z) (ps : list string) :
  forall cur m,
    max_from lane ps cur = Ok m ->
    m = cur \/ exists p, p ∈ ps /\ lane !! p = Some m.
Proof.
  induction ps as [| p ps IH]; intros cur m H; cbn [max_from] in H.
  - left. congruence.
  - apply bind_Ok in H. destruct H as (v & Hv & H). apply getitem_Ok in Hv.
    destruct (IH _ _ H) as [-> | (q & Hq & Hm)].
    + destruct (Z.max_spec cur v) as [[_ ->] | [_ ->]].
      * right. exists p. split; [left | exact Hv].
      * left. reflexivity.
    + right. exists q. split; [right; exact Hq | exact Hm].
Qed.

Lemma max_lane_attained (lane : gmap string Z) (ps : list string) (m : Z) :
  max_lane lane ps = Ok m -> exists p, p ∈ ps /\ lane !! p = Some m.
Proof.
  destruct ps as [| p ps]; cbn [max_lane]; intros H; [discriminate |].
  apply bind_Ok in H. destruct H as (v & Hv & H). apply getitem_Ok in Hv.
  destruct (max_from_attained _ _ _ _ H) as [-> | (q & Hq & Hm)].
  - exists p. split; [left | exact Hv].
  - exists q. split; [right; exact Hq | exact Hm].
Qed.

Lemma lane_loop_S (passes : nat) (nodes : list node)
    (preds : gmap string (list string)) (ov lane : gmap string Z) :
  lane_loop (S passes) nodes preds ov lane =
  '(lane1, changed) ← lane_pass nodes preds ov lane false;
  if (changed : bool) then lane_loop passes nodes preds ov lane1
  else Ok lane1.
Proof. reflexivity. Qed.

Section Ordered.
Variable preds : gmap string (list string).
Variable lane_override : gmap string Z.

Lemma longest_path_settled (lane : gmap string Z) (n : node) :
  longest_path preds lane_override lane n ->
  settled preds lane_override lane n.
Proof.
  intros H Hov ps Hps Hne. destruct (H Hov ps Hps Hne) as (m & Hm & Hl).
  exists m, (Z.max 0 (m + 1)). split_and!; [exact Hm | exact Hl | lia].
Qed.

(** A pass writes only the lanes of the nodes it runs over. *)
Lemma lane_pass_outside (nodes : list node) :
  forall lane c lane' c',
    lane_pass nodes preds lane_override lane c = Ok (lane', c') ->
    forall k, k ∉ map n_id nodes -> lane' !! k = lane !! k.
Proof.
  induction nodes as [| n nodes IH]; intros lane c lane' c' H k Hk;
    cbn [lane_pass] in H.
  - congruence.
  - assert (Hne : n_id n <> k) by (intros <-; apply Hk; left).
    assert (Hk' : k ∉ map n_id nodes) by (intros Hin; apply Hk; right; exact Hin).
    case_bool_decide; [eauto |].
    apply bind_Ok in H. destruct H as (ps & _ & H).
    destruct ps as [| p ps]; [eauto |].
    apply bind_Ok in H. destruct H as (m & _ & H).
    apply bind_Ok in H. destruct H as (l & _ & H).
    destruct (l <=? m)%Z; [| eauto].
    rewrite (IH _ _ _ _ H k Hk'). apply lookup_insert_ne. exact Hne.
Qed.

(** One pass over nodes listed after their predecessors, started from
    lane 0, puts every node one above its highest predecessor. *)
Lemma lane_pass_longest (nodes : list node) :
  forall lane c lane' c',
    NoDup (map n_id nodes) ->
    preds_earlier preds nodes ->
    (forall n, n ∈ nodes -> lane_override !! n_id n = None ->
       lane !! n_id n = Some 0%Z) ->
    lane_pass nodes preds lane_override lane c = Ok (lane', c') ->
    forall n, n ∈ nodes -> longest_path preds lane_override lane' n.
Proof.
  induction nodes as [| n nodes IH]; intros lane c lane' c' Hnd Hearly Hzero H;
    cbn [lane_pass] in H.
  - intros n Hn. inversion Hn.
  - cbn [map] in Hnd. apply NoDup_cons in Hnd. destruct Hnd as [Hfresh Hnd].
    destruct Hearly as [Hn Hearly].
    assert (Hzero' : forall n', n' ∈ nodes -> lane_override !! n_id n' = None ->
              lane !! n_id n' = Some 0%Z).
    { intros n' Hn'. apply Hzero. right. exact Hn'. }
    case_bool_decide as Hov.
    { intros n' Hn'. apply elem_of_cons in Hn'. destruct Hn' as [-> | Hn'].
      - intros Hnone. rewrite Hnone in Hov. destruct Hov; discriminate.
      - eapply IH; eauto. }
    apply bind_Ok in H. destruct H as (ps & Hps & H). apply getitem_Ok in Hps.
    destruct ps as [| p ps].
    { intros n' Hn'. apply elem_of_cons in Hn'. destruct Hn' as [-> | Hn'].
      - intros _ ps' Hps' Hne. congruence.
      - eapply IH; eauto. }
    apply bind_Ok in H. destruct H as (m & Hm & H).
    apply bind_Ok in H. destruct H as (l & Hl & H). apply getitem_Ok in Hl.
    assert (Hnone : lane_override !! n_id n = None).
    { destruct (lane_override !! n_id n) eqn:E; [| reflexivity].
      exfalso. apply Hov. eauto. }
    assert (l = 0%Z).
    { pose proof (Hzero n ltac:(left) Hnone) as H0. congruence. }
    subst l.
    assert (Hps_out : forall q, q ∈ p :: ps -> q ∉ map n_id nodes).
    { intros q Hq Hin. apply (Hn _ _ Hps Hq). right. exact Hin. }
    assert (Hps_ne : forall q, q ∈ p :: ps -> n_id n <> q).
    { intros q Hq <-. apply (Hn _ _ Hps Hq). left. }
    destruct (0 <=? m)%Z eqn:Hle.
    + apply Z.leb_le in Hle.
      intros n' Hn'. apply elem_of_cons in Hn'. destruct Hn' as [-> | Hn'].
      * intros _ ps' Hps' _. assert (ps' = p :: ps) by congruence. subst ps'.
        exists m. split.
        -- rewrite <- Hm. apply max_lane_ext. intros q Hq.
           rewrite (lane_pass_outside _ _ _ _ _ H q (Hps_out q Hq)).
           apply lookup_insert_ne. apply Hps_ne. exact Hq.
        -- rewrite (lane_pass_outside _ _ _ _ _ H _ Hfresh).
           rewrite lookup_insert_eq. f_equal. lia.
      * eapply IH; [exact Hnd | exact Hearly | | exact H | exact Hn'].
        intros n1 Hn1 Hnone1. rewrite lookup_insert_ne; [auto |].
        intros Heq. apply Hfresh. rewrite Heq.
        apply list_elem_of_fmap. eauto.
    + apply Z.leb_gt in Hle.
      intros n' Hn'. apply elem_of_cons in Hn'. destruct Hn' as [-> | Hn'].
      * intros _ ps' Hps' _. assert (ps' = p :: ps) by congruence. subst ps'.
        exists m. split.
        -- rewrite <- Hm. apply max_lane_ext. intros q Hq.
           apply (lane_pass_outside _ _ _ _ _ H q (Hps_out q Hq)).
        -- rewrite (lane_pass_outside _ _ _ _ _ H _ Hfresh).
           rewrite Hl. f_equal. lia.
      * eapply IH; eauto.
Qed.

(** Over settled nodes a pass changes nothing. *)
Lemma settled_pass_unchanged (nodes : list node) (lane : gmap string Z) :
  (forall n, n ∈ nodes -> is_Some (preds !! n_id n)) ->
  (forall n, n ∈ nodes -> settled preds lane_override lane n) ->
  forall c, lane_pass nodes preds lane_override lane c = Ok (lane, c).
Proof.
  induction nodes as [| n nodes IH]; intros Hpreds Hset c; cbn [lane_pass].
  - reflexivity.
  - assert (IH' : lane_pass nodes preds lane_override lane c = Ok (lane, c)).
    { apply IH; intros n' Hn'; [apply Hpreds | apply Hset]; right; exact Hn'. }
    case_bool_decide as Hov; [exact IH' |].
    destruct (Hpreds n ltac:(left)) as [ps Hps].
    pose proof Hps as Hget. apply getitem_Ok in Hget. rewrite Hget.
    cbn [mbind result_bind].
    destruct ps as [| p ps]; [exact IH' |].
    destruct (Hset n ltac:(left)) with (ps := p :: ps)
      as (m & l & Hm & Hl & Hlt); [| exact Hps | discriminate |].
    { destruct (lane_override !! n_id n) eqn:E; [| reflexivity].
      exfalso. apply Hov. eauto. }
    rewrite Hm. cbn [mbind result_bind].
    apply getitem_Ok in Hl. rewrite Hl. cbn [mbind result_bind].
    apply Z.leb_gt in Hlt. rewrite Hlt. exact IH'.
Qed.

End Ordered.

Lemma listed_preds_earlier (edges : list edge)
    (preds : gmap string (list string)) (nodes : list node) :
  (forall k ps, preds !! k = Some ps -> ps = sources_of k edges) ->
  forall done,
    NoDup (map n_id (done ++ nodes)) ->
    (forall e, e ∈ edges ->
       exists i j : nat,
         map n_id (done ++ nodes) !! i = Some (e_from e) /\
         map n_id (done ++ nodes) !! j = Some (e_to e) /\ (i < j)%nat) ->
    preds_earlier preds nodes.
Proof.
  intros Hall. induction nodes as [| n nodes IH]; intros done Hnd Hord;
    cbn [preds_earlier]; [exact I |].
  split.
  - intros ps p Hps Hp. apply Hall in Hps. subst ps.
    apply sources_of_elem in Hp. destruct Hp as (e & He & Hto & Hfrom).
    destruct (Hord e He) as (i & j & Hi & Hj & Hlt).
    rewrite Hto in Hj. rewrite Hfrom in Hi.
    rewrite map_app in Hnd, Hi, Hj. cbn [map] in Hnd, Hi, Hj.
    assert (Hlen : (map n_id done ++ n_id n :: map n_id nodes)
                     !! length (map n_id done) = Some (n_id n)).
    { rewrite lookup_app_r by lia. rewrite Nat.sub_diag. reflexivity. }
    pose proof (NoDup_lookup _ _ _ _ Hnd Hj Hlen) as ->.
    rewrite lookup_app_l in Hi by exact Hlt.
    apply NoDup_app in Hnd. destruct Hnd as (_ & Hdisj & _).
    apply (Hdisj p). eapply list_elem_of_lookup_2. exact Hi.
  - apply (IH (done ++ [n])); rewrite <- app_assoc; assumption.
Qed.

(** A validated graph whose nodes are listed in topological order: the
    first pass settles every node and the loop stops. *)
Lemma auto_lanes_ordered (nodes : list node) (edges : list edge)
    (ov : gmap string Z) :
  validate_flow nodes edges = Ok tt ->
  NoDup (map n_id nodes) ->
  listed_in_order nodes edges ->
  exists preds lane,
    fill_preds edges (empty_preds nodes) = Ok preds /\
    (forall k, k ∈ map n_id nodes -> preds !! k = Some (sources_of k edges)) /\
    _auto_lanes nodes edges ov = Ok lane /\
    forall n, n ∈ nodes -> longest_path preds ov lane n.
Proof.
  intros Hval Hnd Hord.
  destruct (auto_lanes_returns _ _ ov Hval)
    as (P & lane & HP & Hin & Hall & Hloop & Hlane).
  exists P, lane. split_and!; [exact HP | exact Hin | exact Hlane |].
  rewrite (lane_loop_S 11) in Hloop.
  apply bind_Ok in Hloop. destruct Hloop as ([lane1 c] & Hpass & Hloop).
  assert (Hlong : forall n, n ∈ nodes -> longest_path P ov lane1 n).
  { eapply lane_pass_longest; [exact Hnd | | | exact Hpass].
    - apply (listed_preds_earlier edges P nodes Hall []); assumption.
    - intros n Hn Hnone. rewrite initial_lanes_lookup.
      destruct (decide (n_id n ∈ map n_id nodes)) as [_ | Hout].
      + rewrite Hnone. reflexivity.
      + exfalso. apply Hout, list_elem_of_fmap. eauto. }
  destruct c; [| inversion Hloop; subst; exact Hlong].
  rewrite (lane_loop_S 10) in Hloop.
  rewrite (settled_pass_unchanged P ov nodes lane1) in Hloop.
  - cbn [mbind result_bind] in Hloop. inversion Hloop; subst. exact Hlong.
  - intros n Hn. rewrite Hin; [eauto |]. apply list_elem_of_fmap. eauto.
  - intros n Hn. apply longest_path_settled, Hlong, Hn.
Qed.

(** Lanes: listed in topological order, the layering settles.  When the
    nodes have distinct ids and every edge goes from a node to one
    listed later, the returned lanes are a fixed point of the pass and
    every edge into a node without override goes to a strictly higher
    lane. *)
Theorem auto_lanes_topological_order_layered (nodes : list node)
    (edges : list edge) (lane_override : gmap string Z) :
  validate_flow nodes edges = Ok tt ->
  NoDup (map n_id nodes) ->
  listed_in_order nodes edges ->
  exists lane,
    _auto_lanes nodes edges lane_override = Ok lane /\
    fixed_point nodes edges lane_override lane /\
    forall e, e ∈ edges -> lane_override !! e_to e = None -> ascends lane e.
Proof.
  intros Hval Hnd Hord. pose proof (validate_flow_inv _ _ Hval) as Hends.
  destruct (auto_lanes_ordered _ _ lane_override Hval Hnd Hord)
    as (P & lane & HP & Hin & Hlane & Hlong).
  exists lane. split_and!; [exact Hlane | |].
  - exists P. split; [exact HP |]. apply settled_pass_unchanged.
    + intros n Hn. rewrite Hin; [eauto |]. apply list_elem_of_fmap. eauto.
    + intros n Hn. apply longest_path_settled, Hlong, Hn.
  - intros e He Hnone. destruct (Hends e He) as [_ Hto].
    pose proof Hto as Hto'.
    apply list_elem_of_fmap in Hto. destruct Hto as (n & Hid & Hn).
    assert (Hsrc : e_from e ∈ sources_of (e_to e) edges).
    { apply sources_of_elem. eauto. }
    destruct (Hlong n Hn) with (ps := sources_of (e_to e) edges)
      as (m & Hm & Hl).
    + rewrite <- Hid. exact Hnone.
    + rewrite <- Hid. apply Hin. exact Hto'.
    + intros Hnil. rewrite Hnil in Hsrc. inversion Hsrc.
    + destruct (max_lane_spec _ _ _ Hm _ Hsrc) as (v & Hv & Hle).
      exists v, (Z.max 0 (m + 1)). rewrite Hid.
      split_and!; [exact Hv | exact Hl | lia].
Qed.

(** Lanes: listed in topological order, the layering is the longest
    path one.  A node without override that some edge leads to is put
    in lane [max 0 (m + 1)], where [m] is the highest lane among the
    sources of its incoming edges. *)
Theorem auto_lanes_topological_order_longest_path (nodes : list node)
    (edges : list edge) (lane_override : gmap string Z) :
  validate_flow nodes edges = Ok tt ->
  NoDup (map n_id nodes) ->
  listed_in_order nodes edges ->
  exists lane,
    _auto_lanes nodes edges lane_override = Ok lane /\
    forall e, e ∈ edges -> lane_override !! e_to e = None ->
      exists m,
        (forall e', e' ∈ edges -> e_to e' = e_to e ->
           exists v, lane !! e_from e' = Some v /\ (v <= m)%Z) /\
        (exists e', e' ∈ edges /\ e_to e' = e_to e /\
           lane !! e_from e' = Some m) /\
        lane !! e_to e = Some (Z.max 0 (m + 1)).
Proof.
  intros Hval Hnd Hord. pose proof (validate_flow_inv _ _ Hval) as Hends.
  destruct (auto_lanes_ordered _ _ lane_override Hval Hnd Hord)
    as (P & lane & HP & Hin & Hlane & Hlong).
  exists lane. split; [exact Hlane |].
  intros e He Hnone. destruct (Hends e He) as [_ Hto].
  pose proof Hto as Hto'.
  apply list_elem_of_fmap in Hto. destruct Hto as (n & Hid & Hn).
  assert (Hsrc : e_from e ∈ sources_of (e_to e) edges).
  { apply sources_of_elem. eauto. }
  destruct (Hlong n Hn) with (ps := sources_of (e_to e) edges)
    as (m & Hm & Hl).
  - rewrite <- Hid. exact Hnone.
  - rewrite <- Hid. apply Hin. exact Hto'.
  - intros Hnil. rewrite Hnil in Hsrc. inversion Hsrc.
  - exists m. split_and!.
    + intros e' He' Hto1. apply (max_lane_spec _ _ _ Hm).
      apply sources_of_elem. eauto.
    + destruct (max_lane_attained _ _ _ Hm) as (p & Hp & Hpm).
      apply sources_of_elem in Hp. destruct Hp as (e' & He' & Hto1 & <-).
      eauto.
    + rewrite Hid. exact Hl.
Qed.

Lemma diamond_listed_in_order : listed_in_order diamond_nodes diamond_edges.
Proof.
  intros e He. unfold diamond_edges in He.
  repeat (apply elem_of_cons in He; destruct He as [-> | He]);
    [exists 0%nat, 1%nat | exists 0%nat, 2%nat | exists 1%nat, 3%nat
    | exists 2%nat, 3%nat | inversion He];
    (split_and!; [reflexivity | reflexivity | lia]).
Qed.

Lemma diamond_NoDup : NoDup (map n_id diamond_nodes).
Proof. apply (bool_decide_unpack _). vm_compute. reflexivity. Qed.

Lemma auto_lanes_domain_witness :
  validate_flow diamond_nodes diamond_edges = Ok tt /\
  exists lane,
    _auto_lanes diamond_nodes diamond_edges {[ "c" := 3%Z ]} = Ok lane /\
    forall k, is_Some (lane !! k) <-> k ∈ map n_id diamond_nodes.
Proof.
  assert (Hval : validate_flow diamond_nodes diamond_edges = Ok tt)
    by (vm_compute; reflexivity).
  split; [exact Hval |]. exact (auto_lanes_domain _ _ _ Hval).
Defined.

Lemma auto_lanes_keeps_overrides_witness :
  validate_flow diamond_nodes diamond_edges = Ok tt /\
  exists lane,
    _auto_lanes diamond_nodes diamond_edges {[ "c" := 3%Z ]} = Ok lane /\
    forall n v, n ∈ diamond_nodes ->
      ({[ "c" := 3%Z ]} : gmap string Z) !! n_id n = Some v ->
      lane !! n_id n = Some v.
Proof.
  assert (Hval : validate_flow diamond_nodes diamond_edges = Ok tt)
    by (vm_compute; reflexivity).
  split; [exact Hval |]. exact (auto_lanes_keeps_overrides _ _ _ Hval).
Defined.

Lemma auto_lanes_start_at_zero_witness :
  validate_flow diamond_nodes diamond_edges = Ok tt /\
  exists lane,
    _auto_lanes diamond_nodes diamond_edges {[ "c" := 3%Z ]} = Ok lane /\
    forall n, n ∈ diamond_nodes ->
      ({[ "c" := 3%Z ]} : gmap string Z) !! n_id n = None ->
      exists v,
        lane !! n_id n = Some v /\ (0 <= v)%Z /\
        ((forall e, e ∈ diamond_edges -> e_to e <> n_id n) -> v = 0%Z).
Proof.
  assert (Hval : validate_flow diamond_nodes diamond_edges = Ok tt)
    by (vm_compute; reflexivity).
  split; [exact Hval |]. exact (auto_lanes_start_at_zero _ _ _ Hval).
Defined.

Lemma auto_lanes_topological_order_layered_witness :
  validate_flow diamond_nodes diamond_edges = Ok tt /\
  NoDup (map n_id diamond_nodes) /\
  listed_in_order diamond_nodes diamond_edges /\
  exists lane,
    _auto_lanes diamond_nodes diamond_edges {[ "c" := 3%Z ]} = Ok lane /\
    fixed_point diamond_nodes diamond_edges {[ "c" := 3%Z ]} lane /\
    forall e, e ∈ diamond_edges ->
      ({[ "c" := 3%Z ]} : gmap string Z) !! e_to e = None -> ascends lane e.
Proof.
  assert (Hval : validate_flow diamond_nodes diamond_edges = Ok tt)
    by (vm_compute; reflexivity).
  split_and!; [exact Hval | exact diamond_NoDup | exact diamond_listed_in_order |].
  exact (auto_lanes_topological_order_layered _ _ _ Hval diamond_NoDup
           diamond_listed_in_order).
Defined.

Lemma auto_lanes_topological_order_longest_path_witness :
  validate_flow diamond_nodes diamond_edges = Ok tt /\
  NoDup (map n_id diamond_nodes) /\
  listed_in_order diamond_nodes diamond_edges /\
  exists lane,
    _auto_lanes diamond_nodes diamond_edges {[ "c" := 3%Z ]} = Ok lane /\
    forall e, e ∈ diamond_edges ->
      ({[ "c" := 3%Z ]} : gmap string Z) !! e_to e = None ->
      exists m,
        (forall e', e' ∈ diamond_edges -> e_to e' = e_to e ->
           exists v, lane !! e_from e' = Some v /\ (v <= m)%Z) /\
        (exists e', e' ∈ diamond_edges /\ e_to e' = e_to e /\
           lane !! e_from e' = Some m) /\
        lane !! e_to e = Some (Z.max 0 (m + 1)).
Proof.
  assert (Hval : validate_flow diamond_nodes diamond_edges = Ok tt)
    by (vm_compute; reflexivity).
  split_and!; [exact Hval | exact diamond_NoDup | exact diamond_listed_in_order |].
  exact (auto_lanes_topological_order_longest_path _ _ _ Hval diamond_NoDup
           diamond_listed_in_order).
Defined.

(** Routing: the polyline of an edge starts at the first point given
    and ends at the second, every segment of it is vertical or
    horizontal, a forward route has three segments and a backward one
    four; the detour of a backward route runs 60 beyond both ends. *)
Theorem route_polyline_orthogonal (x0 y0 x1 y1 : Q) (backward : bool) :
  let pts := _route_polyline x0 y0 x1 y1 backward in
  head pts = Some (x0, y0) /\
  last pts = Some (x1, y1) /\
  orthogonal pts /\
  length pts = (if backward then 5 else 4)%nat /\
  (backward = true ->
   exists up left,
     pts = [(x0, y0); (x0, up); (left, up); (left, y1); (x1, y1)] /\
     y0 + 60 <= up /\ y1 + 60 <= up /\
     left <= x0 - 60 /\ left <= x1 - 60).
Proof.
  destruct backward; cbn.
  - split_and!; auto. intros _.
    exists (Qmax y0 y1 + 60), (Qmin x0 x1 - 60).
    pose proof (Q.le_max_l y0 y1). pose proof (Q.le_max_r y0 y1).
    pose proof (Q.le_min_l x0 x1). pose proof (Q.le_min_r x0 x1).
    split_and!; [reflexivity | lra ..].
  - split_and!; auto. discriminate.
Qed.

End FlowFacts.

(** ** Radial partition *)
Section SunburstFacts.
Import Sunburst.
Lemma node_nested_ind (P : node -> Prop) :
  (forall l v i, P (mkNode l v i None)) ->
  (forall l v i chs, Forall P chs -> P (mkNode l v i (Some chs))) ->
  forall nd, P nd.
Proof.
  intros Hleaf Hnode. fix IH 1. intros [l v i [chs |]]; [| apply Hleaf].
  apply Hnode. induction chs as [| c chs IHc]; constructor;
    [apply IH | exact IHc].
Qed.

Section Layout.
Variables (ring_thick gap_rad : Q) (max_depth : option Z).

Lemma layout_children_spec
    (f : node -> Q -> Q -> list slice -> result (node * list slice))
    (depth : Z) (outer total span : Q) (chs : list node) :
  Forall (fun ch => forall a w sl ch' sl',
            f ch a w sl = Ok (ch', sl') ->
            call_ok ring_thick gap_rad max_depth depth ch (Some outer)
              a w sl ch' sl') chs ->
  forall a sl chs' sl',
    layout_children f total span chs a sl = Ok (chs', sl') ->
    map erase_inner chs' = map erase_inner chs /\
    exists new,
      sl' = sl ++ new /\
      (too_deep max_depth depth = false -> (length chs <= length new)%nat) /\
      ((forall v, span * frac_of total v == 0) ->
       forall a0, a == a0 -> Forall (collapsed_at gap_rad a0) new).
Proof.
  induction 1 as [| ch chs Hch _ IH]; intros a sl chs' sl' H;
    cbn [layout_children] in H.
  - inversion H; subst. split; [reflexivity |]. exists [].
    rewrite app_nil_r. split_and!; [reflexivity | simpl; lia | constructor].
  - apply bind_Ok in H. destruct H as ([ch' sl1] & Hcall & H).
    apply bind_Ok in H. destruct H as ([rest' sl2] & Hrest & H).
    inversion H; subst. clear H.
    destruct (Hch _ _ _ _ _ Hcall) as (He & _ & new1 & -> & Hfirst & Hz1).
    destruct (IH _ _ _ _ Hrest) as (Hes & new2 & -> & Hlen & Hz2).
    split; [simpl; congruence |].
    exists (new1 ++ new2). rewrite app_assoc. split_and!; [reflexivity | |].
    + intros Hd. destruct (Hfirst Hd) as (i & r & _ & ->).
      specialize (Hlen Hd). rewrite length_app. simpl. lia.
    + intros Hspan a0 Ha.
      pose proof (Hspan (value ch)) as Hw.
      apply Forall_app. split.
      * apply Hz1; assumption.
      * apply Hz2; [exact Hspan |]. rewrite Hw, <- Ha. ring.
Qed.

Lemma layout_at_spec (nd : node) :
  forall inn a w depth slices nd' slices',
    layout_at nd inn a w depth ring_thick gap_rad max_depth slices
      = Ok (nd', slices') ->
    call_ok ring_thick gap_rad max_depth depth nd inn a w slices nd' slices'.
Proof.
  induction nd as [l v i0 | l v i0 chs IH] using node_nested_ind;
    intros inn a w depth slices nd' slices' H; cbn [layout_at] in H;
    unfold call_ok; cbn [label value children] in *;
    destruct (too_deep max_depth depth) eqn:Hdeep.
  - inversion H; subst. split_and!; [reflexivity | reflexivity |].
    exists []. rewrite app_nil_r.
    split_and!; [reflexivity | discriminate | constructor].
  - destruct inn as [i |]; [| discriminate]. inversion H; subst.
    split_and!; [reflexivity | reflexivity |].
    eexists. split_and!; [reflexivity | eauto |].
    intros Hw a0 Ha. repeat constructor; simpl; rewrite ?Hw, Ha; ring.
  - inversion H; subst. split_and!; [reflexivity | reflexivity |].
    exists []. rewrite app_nil_r.
    split_and!; [reflexivity | discriminate | constructor].
  - destruct inn as [i |]; [| discriminate].
    destruct chs as [| c chs].
    { inversion H; subst. split_and!; [reflexivity | reflexivity |].
      eexists. split_and!; [reflexivity | eauto |].
      intros Hw a0 Ha. repeat constructor; simpl; rewrite ?Hw, Ha; ring. }
    apply bind_Ok in H. destruct H as ([chs' sl2] & Hloop & H).
    inversion H; subst. clear H.
    apply (layout_children_spec _ (depth + 1) (i + ring_thick)) in Hloop.
    + destruct Hloop as (He & new & -> & _ & Hz).
      split_and!; [cbn; f_equal; f_equal; exact He | reflexivity |].
      eexists (_ :: new). rewrite <- app_assoc. split_and!; [reflexivity | eauto |].
      intros Hw a0 Ha. constructor.
      * split; simpl; rewrite ?Hw, Ha; ring.
      * apply Hz; [| exact Ha]. intros v0. rewrite Hw. ring.
    + eapply Forall_impl; [exact IH |]. intros ch Hch a1 w1 sl ch' sl' Hc.
      apply Hch. exact Hc.
Qed.

Lemma layout_children_ok
    (f : node -> Q -> Q -> list slice -> result (node * list slice))
    (total span : Q) (chs : list node) :
  Forall (fun ch => forall a w sl, exists r, f ch a w sl = Ok r) chs ->
  forall a sl, exists r, layout_children f total span chs a sl = Ok r.
Proof.
  induction 1 as [| ch chs Hch _ IH]; intros a sl; cbn [layout_children].
  - eauto.
  - destruct (Hch a (span * frac_of total (value ch)) sl) as [[ch' sl1] ->].
    cbn [mbind result_bind].
    destruct (IH (a + span * frac_of total (value ch)) sl1) as [[r' sl2] ->].
    cbn [mbind result_bind]. eauto.
Qed.

(** A node whose ["inner"] key is set is laid out without an error. *)
Lemma layout_at_ok (nd : node) :
  forall i a w depth slices,
    exists r,
      layout_at nd (Some i) a w depth ring_thick gap_rad max_depth slices
        = Ok r.
Proof.
  induction nd as [l v i0 | l v i0 chs IH] using node_nested_ind;
    intros i a w depth slices; cbn [layout_at label value children];
    destruct (too_deep max_depth depth); eauto.
  destruct chs as [| c chs]; [eauto |].
  match goal with
  | |- context [layout_children ?f ?t ?sp ?l ?a0 ?s0] =>
      assert (Hall : Forall (fun ch => forall a w sl,
                               exists r, f ch a w sl = Ok r) l)
        by (eapply Forall_impl; [exact IH |];
            intros ch Hch a1 w1 sl1; apply Hch);
      destruct (layout_children_ok f t sp l Hall a0 s0) as [[chs' sl2] ->]
  end.
  cbn [mbind result_bind]. eauto.
Qed.

End Layout.

(** *** A node whose children add up to nothing *)

Lemma frac_of_nonpos (total v : Q) : total <= 0 -> frac_of total v == 0.
Proof.
  intros Ht. unfold frac_of. destruct (Qlt_bool 0 total) eqn:E; [| reflexivity].
  apply Qlt_bool_iff in E. lra.
Qed.

(** C5 (as amended).  When the values of a node's children add up to
    zero (or less), every child is given the span 0 at the node's own
    start angle: all wedges emitted below the node have a pre-gap span
    of 0, and there is one for each child at least (unless the depth
    limit cuts them off). *)
Theorem zero_total_children_get_no_span (lbl : string) (val i : Q)
    (chs : list node) (start span : Q) (depth : Z) (ring_thick gap_rad : Q)
    (max_depth : option Z) :
  chs <> [] -> sumQ (map value chs) <= 0 ->
  too_deep max_depth depth = false ->
  exists nd' own rest,
    _layout (mkNode lbl val (Some i) (Some chs)) start span depth
      ring_thick gap_rad max_depth [] = Ok (nd', own :: rest) /\
    Forall (fun s => theta1 s == start + gap_rad / 2 /\
                     pre_gap_span gap_rad s == 0) rest /\
    (too_deep max_depth (depth + 1) = false ->
     (length chs <= length rest)%nat).
Proof.
  intros Hne Htotal Hdeep.
  destruct chs as [| c chs]; [congruence |].
  unfold _layout. cbn [layout_at inner label value children]. rewrite Hdeep.
  match goal with
  | |- context [layout_children ?f ?t ?sp ?l ?a0 ?s0] =>
      assert (Hall : Forall (fun ch => forall a w sl,
                               exists r, f ch a w sl = Ok r) l)
        by (apply Forall_forall; intros ch _ a1 w1 sl1; apply layout_at_ok);
      destruct (layout_children_ok f t sp l Hall a0 s0) as [[chs' sl2] Hloop]
  end.
  rewrite Hloop. cbn [mbind result_bind].
  apply (layout_children_spec ring_thick gap_rad max_depth _ (depth + 1)
           (i + ring_thick)) in Hloop.
  - destruct Hloop as (_ & new & -> & Hlen & Hz).
    eexists _, _, new. split_and!; [reflexivity | | exact Hlen].
    eapply Forall_impl.
    + apply Hz; [| reflexivity]. intros v.
      rewrite (frac_of_nonpos _ v Htotal). ring.
    + intros s [H1 H2]. split; [exact H1 |].
      unfold pre_gap_span. rewrite H1, H2. field.
  - apply Forall_forall. intros ch _ a1 w1 sl ch' sl' Hc.
    apply layout_at_spec. exact Hc.
Qed.

(** A root of span 1 with two leaf children of value 0, without gap:
    the wedge of the first child has no extent. *)
Example two_zero_children :
  exists nd' own s1 s2,
    _layout (mkNode "r" 1 (Some 0.38)
               (Some [mkNode "a" 0 None None; mkNode "b" 0 None None]))
      0 1 0 0.18 0 None [] = Ok (nd', [own; s1; s2]) /\
    pre_gap_span 0 s1 == 0.
Proof.
  do 4 eexists. split; vm_compute; reflexivity.
Qed.

Lemma zero_total_children_witness :
  [mkNode "a" 0 None None; mkNode "b" 0 None None] <> [] /\
  sumQ (map value [mkNode "a" 0 None None; mkNode "b" 0 None None]) <= 0 /\
  too_deep None 0 = false /\
  exists nd' own rest,
    _layout (mkNode "r" 1 (Some 0.38)
               (Some [mkNode "a" 0 None None; mkNode "b" 0 None None]))
      0 1 0 0.18 0 None [] = Ok (nd', own :: rest) /\
    Forall (fun s => theta1 s == 0 + 0 / 2 /\ pre_gap_span 0 s == 0) rest /\
    (too_deep None (0 + 1) = false -> (2 <= length rest)%nat).
Proof.
  assert (H1 : [mkNode "a" 0 None None; mkNode "b" 0 None None] <> [])
    by discriminate.
  assert (H2 : sumQ (map value [mkNode "a" 0 None None; mkNode "b" 0 None None])
               <= 0) by (vm_compute; discriminate).
  split; [exact H1 |]. split; [exact H2 |]. split; [reflexivity |].
  exact (zero_total_children_get_no_span "r" 1 0.38 _ 0 1 0 0.18 0 None
           H1 H2 eq_refl).
Defined.

(** C5 as stated fails: a node with span 1 and two leaf children of
    value 0 gives each of them the span 0, not 1/2. *)
Lemma zero_total_children_not_even :
  ~ (forall (lbl : string) (val i : Q) (chs : list node)
            (start span ring_thick gap_rad : Q) (nd' : node)
            (own : slice) (rest : list slice),
        chs <> [] -> Forall is_leaf chs -> sumQ (map value chs) == 0 ->
        _layout (mkNode lbl val (Some i) (Some chs)) start span 0
          ring_thick gap_rad None [] = Ok (nd', own :: rest) ->
        Forall (fun s => pre_gap_span gap_rad s ==
                         span / inject_Z (Z.of_nat (length chs))) rest).
Proof.
  intros H.
  destruct two_zero_children as (nd' & own & s1 & s2 & E & Hs1).
  specialize (H "r" 1 0.38 [mkNode "a" 0 None None; mkNode "b" 0 None None]
                0 1 0.18 0 nd' own [s1; s2]).
  assert (Hleaf : Forall is_leaf [mkNode "a" 0 None None; mkNode "b" 0 None None])
    by (repeat constructor).
  specialize (H ltac:(discriminate) Hleaf ltac:(reflexivity) E).
  inversion H as [| ? ? Hs _]; subst.
  rewrite Hs1 in Hs. vm_compute in Hs. discriminate.
Qed.

(** *** What the layout writes into the hierarchy *)

Lemma layout_children_nodes
    (f : node -> Q -> Q -> list slice -> result (node * list slice))
    (g : node -> node) (total span : Q) (chs : list node) :
  Forall (fun ch => forall a w sl ch' sl',
            f ch a w sl = Ok (ch', sl') -> ch' = g ch) chs ->
  forall a sl chs' sl',
    layout_children f total span chs a sl = Ok (chs', sl') ->
    chs' = map g chs.
Proof.
  induction 1 as [| ch chs Hch _ IH]; intros a sl chs' sl' H;
    cbn [layout_children] in H.
  - inversion H; subst. reflexivity.
  - apply bind_Ok in H. destruct H as ([ch' sl1] & Hcall & H).
    apply bind_Ok in H. destruct H as ([rest' sl2] & Hrest & H).
    inversion H; subst. clear H. cbn [map]. f_equal.
    + exact (Hch _ _ _ _ _ Hcall).
    + exact (IH _ _ _ _ Hrest).
Qed.

(** The node a call returns is the node it was given with the
    ["inner"] keys written. *)
Lemma layout_at_with_inner (ring_thick gap_rad : Q) (max_depth : option Z)
    (nd : node) :
  forall i a w depth slices nd' slices',
    layout_at nd (Some i) a w depth ring_thick gap_rad max_depth slices
      = Ok (nd', slices') ->
    nd' = with_inner ring_thick max_depth depth i nd.
Proof.
  induction nd as [l v i0 | l v i0 chs IH] using node_nested_ind;
    intros i a w depth slices nd' slices' H; cbn [layout_at] in H;
    cbn [with_inner label value children] in *;
    destruct (too_deep max_depth depth) eqn:Hdeep.
  - inversion H; subst. reflexivity.
  - inversion H; subst. reflexivity.
  - inversion H; subst. reflexivity.
  - destruct chs as [| c chs]; [inversion H; subst; reflexivity |].
    apply bind_Ok in H. destruct H as ([chs' sl2] & Hloop & H).
    inversion H; subst. clear H. f_equal. f_equal.
    eapply layout_children_nodes; [| exact Hloop].
    eapply Forall_impl; [exact IH |]. intros ch Hch a1 w1 sl ch' sl' Hc.
    eapply Hch. exact Hc.
Qed.

Lemma with_inner_erase (ring_thick : Q) (max_depth : option Z) (nd : node) :
  forall depth i,
    erase_inner (with_inner ring_thick max_depth depth i nd) = erase_inner nd.
Proof.
  induction nd as [l v i0 | l v i0 chs IH] using node_nested_ind;
    intros depth i; cbn [with_inner erase_inner label value children];
    destruct (too_deep max_depth depth); try reflexivity.
  f_equal. f_equal. rewrite map_map.
  induction IH as [| c chs Hc _ IHc]; [reflexivity |].
  cbn [map]. f_equal; [apply Hc | exact IHc].
Qed.

Lemma with_inner_children (ring_thick : Q) (max_depth : option Z)
    (depth : Z) (i : Q) (chs : list node) :
  Forall (fun ch' => inner ch' = Some i)
    (map (with_inner ring_thick max_depth depth i) chs).
Proof.
  apply Forall_forall. intros ch' Hin.
  apply list_elem_of_fmap in Hin. destruct Hin as (ch & -> & _).
  destruct ch; reflexivity.
Qed.

(** Without a depth limit every node ends up with an ["inner"] key, and
    the children of a node hold its ["inner"] plus the ring thickness. *)
Lemma with_inner_everywhere (ring_thick : Q) (nd : node) :
  forall depth i,
    Forall (fun nd' =>
              exists j, inner nd' = Some j /\
                forall chs', children nd' = Some chs' ->
                  Forall (fun ch' => inner ch' = Some (j + ring_thick)) chs')
      (preorder (with_inner ring_thick None depth i nd)).
Proof.
  induction nd as [l v i0 | l v i0 chs IH] using node_nested_ind;
    intros depth i; cbn [with_inner preorder too_deep label value children].
  - constructor; [| constructor]. exists i. split; [reflexivity |].
    intros chs' H. discriminate.
  - constructor.
    + exists i. split; [reflexivity |]. intros chs' H. inversion H; subst.
      apply with_inner_children.
    + apply Forall_concat. rewrite map_map. apply Forall_map.
      eapply Forall_impl; [exact IH |]. intros ch Hch. apply Hch.
Qed.

(** C8 (as amended).  The layout writes the key ["inner"] and nothing
    else.  [build] always returns, and the hierarchy is then the one
    that was passed in with ["inner"] keys written: the root holds
    [inner_frac]; every child of a node that got a wedge (a node within
    the depth limit) holds the outer radius of that node, the ["inner"]
    of the node plus [ring_thickness], so without a depth limit every
    node of the hierarchy; the nodes below the depth limit are as they
    were.  With the ["inner"] keys removed the hierarchy is the one
    that was passed in. *)
Theorem sunburst_writes_inner_only (root : node)
    (inner_frac ring_thickness gap_rad : Q) (max_depth : option Z)
    (start_rad two_pi : Q) :
  exists root' slices,
    build root inner_frac ring_thickness gap_rad max_depth start_rad two_pi
      = Ok (root', slices) /\
    root' = with_inner ring_thickness max_depth 0 inner_frac root /\
    inner root' = Some inner_frac /\
    (too_deep max_depth 0 = false ->
     forall chs', children root' = Some chs' ->
       Forall (fun ch' => inner ch' = Some (inner_frac + ring_thickness))
         chs') /\
    (max_depth = None ->
     Forall (fun nd' : node =>
               exists i : Q, inner nd' = Some i /\
                 forall chs', children nd' = Some chs' ->
                   Forall (fun ch' => inner ch' = Some (i + ring_thickness))
                     chs')
       (preorder root')) /\
    erase_inner root' = erase_inner root.
Proof.
  unfold build, _layout. cbn [inner].
  match goal with
  | |- context [layout_at ?n (Some ?i) ?a ?w ?d ?r ?g ?m ?s0] =>
      destruct (layout_at_ok r g m n i a w d s0) as [[root' slices] E]
  end.
  exists root', slices. split; [exact E |].
  apply layout_at_with_inner in E.
  assert (Hroot : root' = with_inner ring_thickness max_depth 0 inner_frac root).
  { rewrite E. destruct root; reflexivity. }
  split; [exact Hroot |]. clear E. subst root'.
  split_and!.
  - destruct root; reflexivity.
  - intros Hdeep chs' Hchs. destruct root as [l v i0 chs0].
    cbn [with_inner children] in Hchs. rewrite Hdeep in Hchs.
    destruct chs0 as [chs |]; [| discriminate].
    inversion Hchs; subst. apply with_inner_children.
  - intros ->. apply with_inner_everywhere.
  - apply with_inner_erase.
Qed.

(** C8 as stated fails: after the layout of a root with one child both
    hold an ["inner"] key that they did not hold before. *)
Lemma sunburst_mutates_input :
  ~ (forall (root : node) (inner_frac ring_thickness gap_rad : Q)
            (max_depth : option Z) (start_rad two_pi : Q)
            (root' : node) (slices : list slice),
        build root inner_frac ring_thickness gap_rad max_depth
          start_rad two_pi = Ok (root', slices) ->
        root' = root).
Proof.
  intros H.
  specialize (H (mkNode "r" 1 None (Some [mkNode "a" 1 None None]))
                0.38 0.18 0 None 0 1
                (mkNode "r" 1 (Some 0.38)
                   (Some [mkNode "a" 1 (Some (0.38 + 0.18)) None]))).
  specialize (H _ eq_refl). discriminate.
Qed.

(** *** The wedge list as a whole *)

Lemma layout_children_rel
    (f : node -> Q -> Q -> list slice -> result (node * list slice))
    (P : node -> Q -> Q -> list slice -> Prop) (total span : Q)
    (chs : list node) :
  Forall (fun ch => forall a w sl ch' sl',
            f ch a w sl = Ok (ch', sl') ->
            exists new, sl' = sl ++ new /\ P ch a w new) chs ->
  forall a sl chs' sl',
    layout_children f total span chs a sl = Ok (chs', sl') ->
    exists news,
      sl' = sl ++ concat news /\ children_rel P total span chs a news.
Proof.
  induction 1 as [| ch chs Hch _ IH]; intros a sl chs' sl' H;
    cbn [layout_children] in H.
  - inversion H; subst. exists []. simpl. rewrite app_nil_r. auto.
  - apply bind_Ok in H. destruct H as ([ch' sl1] & Hcall & H).
    apply bind_Ok in H. destruct H as ([rest' sl2] & Hrest & H).
    inversion H; subst. clear H.
    destruct (Hch _ _ _ _ _ Hcall) as (new & -> & HP).
    destruct (IH _ _ _ _ Hrest) as (news & -> & Hrel).
    exists (new :: news). simpl. rewrite app_assoc. auto.
Qed.

Lemma children_rel_Forall (P : node -> Q -> Q -> list slice -> Prop)
    (R : list slice -> Prop) (total span : Q) (chs : list node) :
  (forall ch a w new, P ch a w new -> R new) ->
  forall a news, children_rel P total span chs a news -> Forall R news.
Proof.
  intros HPR. induction chs as [| ch chs IH]; intros a [| new news] H;
    simpl in H; try contradiction; constructor.
  - eapply HPR. apply H.
  - eapply IH. apply H.
Qed.

Lemma children_rel_preorder (total span : Q) (chs : list node) :
  forall a news,
    children_rel
      (fun ch _ _ new =>
         map (fun s => (s_label s, s_value s)) new =
         map (fun n => (label n, value n)) (preorder ch))
      total span chs a news ->
    map (fun s => (s_label s, s_value s)) (concat news) =
    map (fun n => (label n, value n)) (concat (map preorder chs)).
Proof.
  induction chs as [| ch chs IH]; intros a [| new news] Hrel;
    simpl in Hrel; try contradiction; [reflexivity |].
  destruct Hrel as [Hnew Hrel]. simpl.
  rewrite !map_app, Hnew. f_equal. eapply IH. exact Hrel.
Qed.

Section Wedges.
Variables (ring_thick gap_rad : Q) (max_depth : option Z).

Lemma in_ring_up (d : Z) (i : Q) (s : slice) :
  in_ring ring_thick max_depth (d + 1) (i + ring_thick) s ->
  in_ring ring_thick max_depth d i s /\ (d + 1 <= s_depth s)%Z.
Proof.
  intros (Hd & Hdeep & Hin & Hout). split; [| exact Hd].
  split_and!; [lia | exact Hdeep | | exact Hout].
  rewrite Hin.
  replace (s_depth s - d)%Z with ((s_depth s - (d + 1)) + 1)%Z by lia.
  rewrite inject_Z_plus. ring.
Qed.

(** Every wedge a call appends lies in the ring of its depth. *)
Lemma layout_at_in_ring (nd : node) :
  forall i a w depth slices nd' slices',
    layout_at nd (Some i) a w depth ring_thick gap_rad max_depth slices
      = Ok (nd', slices') ->
    exists new,
      slices' = slices ++ new /\
      Forall (in_ring ring_thick max_depth depth i) new.
Proof.
  induction nd as [l v i0 | l v i0 chs IH] using node_nested_ind;
    intros i a w depth slices nd' slices' H; cbn [layout_at] in H;
    cbn [label value children] in *;
    destruct (too_deep max_depth depth) eqn:Hdeep.
  - inversion H; subst. exists []. rewrite app_nil_r. auto.
  - inversion H; subst. eexists [_]. split; [reflexivity |].
    constructor; [| constructor].
    split_and!; simpl; [lia | exact Hdeep | | reflexivity].
    rewrite Z.sub_diag. ring.
  - inversion H; subst. exists []. rewrite app_nil_r. auto.
  - assert (Hown : in_ring ring_thick max_depth depth i
                     (mkSlice i (i + ring_thick) (a + gap_rad / 2)
                        (a + w - gap_rad / 2) l depth v)).
    { split_and!; simpl; [lia | exact Hdeep | | reflexivity].
      rewrite Z.sub_diag. ring. }
    destruct chs as [| c chs].
    { inversion H; subst. eexists [_]. split; [reflexivity |].
      constructor; [exact Hown | constructor]. }
    apply bind_Ok in H. destruct H as ([chs' sl2] & Hloop & H).
    inversion H; subst. clear H.
    apply (layout_children_rel _
             (fun _ _ _ new =>
                Forall (in_ring ring_thick max_depth (depth + 1)
                          (i + ring_thick)) new)) in Hloop.
    + destruct Hloop as (news & -> & Hrel).
      eexists (_ :: concat news). rewrite <- app_assoc.
      split; [reflexivity |]. constructor; [exact Hown |].
      apply Forall_concat.
      eapply Forall_impl.
      * eapply (children_rel_Forall _ _ _ _ _ (fun _ _ _ _ H0 => H0)).
        exact Hrel.
      * intros new Hnew. eapply Forall_impl; [exact Hnew |].
        intros s Hs. apply in_ring_up. exact Hs.
    + eapply Forall_impl; [exact IH |]. intros ch Hch a1 w1 sl ch' sl' Hc.
      exact (Hch _ _ _ _ _ _ _ Hc).
Qed.

(** Without a depth limit a call appends one wedge for every node of
    the subtree, in pre-order, with the node's label and value. *)
Lemma layout_at_preorder (nd : node) :
  max_depth = None ->
  forall i a w depth slices nd' slices',
    layout_at nd (Some i) a w depth ring_thick gap_rad max_depth slices
      = Ok (nd', slices') ->
    exists new,
      slices' = slices ++ new /\
      map (fun s => (s_label s, s_value s)) new =
      map (fun n => (label n, value n)) (preorder nd).
Proof.
  intros Hmax. subst max_depth.
  induction nd as [l v i0 | l v i0 chs IH] using node_nested_ind;
    intros i a w depth slices nd' slices' H; cbn [layout_at too_deep] in H;
    cbn [label value children] in *.
  - inversion H; subst. eexists [_]. split; reflexivity.
  - destruct chs as [| c chs].
    { inversion H; subst. eexists [_]. split; reflexivity. }
    apply bind_Ok in H. destruct H as ([chs' sl2] & Hloop & H).
    inversion H; subst. clear H.
    apply (layout_children_rel _
             (fun ch _ _ new =>
                map (fun s => (s_label s, s_value s)) new =
                map (fun n => (label n, value n)) (preorder ch))) in Hloop.
    + destruct Hloop as (news & -> & Hrel).
      eexists (_ :: concat news). rewrite <- app_assoc.
      split; [reflexivity |].
      pose proof (children_rel_preorder _ _ _ _ _ Hrel) as Hkids.
      cbn [preorder children label value]. rewrite !map_cons. f_equal.
      exact Hkids.
    + eapply Forall_impl; [exact IH |]. intros ch Hch a1 w1 sl ch' sl' Hc.
      exact (Hch _ _ _ _ _ _ _ Hc).
Qed.

End Wedges.

(** Sunburst: one wedge per node, in pre-order.  Without a depth limit
    [build] returns one wedge for every node of the hierarchy, root
    first and then the subtree of each child in turn, each wedge with
    the label and the value of its node. *)
Theorem sunburst_wedges_preorder (root : node)
    (inner_frac ring_thickness gap_rad start_rad two_pi : Q) :
  exists root' slices,
    build root inner_frac ring_thickness gap_rad None start_rad two_pi
      = Ok (root', slices) /\
    map (fun s => (s_label s, s_value s)) slices =
    map (fun n => (label n, value n)) (preorder root) /\
    length slices = length (preorder root).
Proof.
  unfold build, _layout. cbn [inner].
  match goal with
  | |- context [layout_at ?n (Some ?i) ?a ?w ?d ?r ?g ?m ?s0] =>
      destruct (layout_at_ok r g m n i a w d s0) as [[root' slices] E]
  end.
  exists root', slices. split; [exact E |].
  apply layout_at_preorder in E; [| reflexivity].
  destruct E as (new & -> & Hmap). simpl app.
  assert (Hpre : map (fun n => (label n, value n))
                   (preorder (mkNode (label root) (value root)
                                (Some inner_frac) (children root))) =
                 map (fun n => (label n, value n)) (preorder root))
    by (destruct root; reflexivity).
  rewrite Hpre in Hmap. split; [exact Hmap |].
  rewrite <- (length_map (fun s => (s_label s, s_value s))), Hmap.
  apply length_map.
Qed.

(** Sunburst: rings by depth.  Every wedge that [build] returns is at a
    depth from 0 up to the depth limit (when there is one), its inner
    radius is [inner_frac + depth * ring_thickness] and its outer radius
    lies one ring thickness further out. *)
Theorem sunburst_wedges_in_rings (root : node)
    (inner_frac ring_thickness gap_rad : Q) (max_depth : option Z)
    (start_rad two_pi : Q) :
  exists root' slices,
    build root inner_frac ring_thickness gap_rad max_depth start_rad two_pi
      = Ok (root', slices) /\
    Forall (fun s =>
              (0 <= s_depth s)%Z /\
              (forall d, max_depth = Some d -> (s_depth s <= d)%Z) /\
              s_inner s == inner_frac + inject_Z (s_depth s) * ring_thickness /\
              s_outer s == s_inner s + ring_thickness) slices.
Proof.
  unfold build, _layout. cbn [inner].
  match goal with
  | |- context [layout_at ?n (Some ?i) ?a ?w ?d ?r ?g ?m ?s0] =>
      destruct (layout_at_ok r g m n i a w d s0) as [[root' slices] E]
  end.
  exists root', slices. split; [exact E |].
  apply layout_at_in_ring in E. destruct E as (new & -> & Hall). simpl app.
  eapply Forall_impl; [exact Hall |].
  intros s (Hd & Hdeep & Hin & Hout). split_and!; [exact Hd | | | exact Hout].
  - intros d ->. simpl in Hdeep. apply Z.ltb_ge in Hdeep. exact Hdeep.
  - rewrite Hin, Z.sub_0_r. reflexivity.
Qed.

(** *** How a node's span is shared among its children *)

Section Shares.
Variables (ring_thick gap_rad : Q) (max_depth : option Z).

(** The first wedge a call appends is the node's own; all the others
    lie at least one ring further out. *)
Lemma layout_at_shape (nd : node) (i a w : Q) (depth : Z)
    (slices : list slice) (nd' : node) (slices' : list slice) :
  too_deep max_depth depth = false ->
  layout_at nd (Some i) a w depth ring_thick gap_rad max_depth slices
    = Ok (nd', slices') ->
  exists rest,
    slices' = slices ++
      mkSlice i (i + ring_thick) (a + gap_rad / 2) (a + w - gap_rad / 2)
        (label nd) depth (value nd) :: rest /\
    Forall (fun s => (depth + 1 <= s_depth s)%Z) rest.
Proof.
  intros Hdeep H.
  pose proof (layout_at_spec _ _ _ _ _ _ _ _ _ _ _ H) as (_ & _ & Hnew).
  destruct Hnew as (new & -> & Hfirst & _).
  destruct (Hfirst Hdeep) as (i' & rest & Hi & ->). inversion Hi; subst i'.
  exists rest. split; [reflexivity |].
  destruct nd as [l v i0 chs]. cbn [layout_at label value children] in H.
  rewrite Hdeep in H.
  destruct chs as [[| c chs] |].
  - injection H as Hnd Heq. apply app_inv_head in Heq. inversion Heq. constructor.
  - apply bind_Ok in H. destruct H as ([chs' sl2] & Hloop & H).
    injection H as Hnd Heq.
    apply (layout_children_rel _
             (fun _ _ _ new =>
                Forall (in_ring ring_thick max_depth (depth + 1)
                          (i + ring_thick)) new)) in Hloop.
    + destruct Hloop as (news & -> & Hrel).
      rewrite <- app_assoc in Heq. apply app_inv_head in Heq.
      inversion Heq; subst rest.
      apply Forall_concat. eapply Forall_impl.
      * eapply (children_rel_Forall _ _ _ _ _ (fun _ _ _ _ H0 => H0)).
        exact Hrel.
      * intros new Hnew. eapply Forall_impl; [exact Hnew |].
        intros s Hs. apply Hs.
    + apply Forall_forall. intros ch _ a1 w1 sl ch' sl' Hc.
      exact (layout_at_in_ring _ _ _ _ _ _ _ _ _ _ _ Hc).
  - injection H as Hnd Heq. apply app_inv_head in Heq. inversion Heq. constructor.
Qed.

Lemma at_depth_deeper (d : Z) (l : list slice) :
  Forall (fun s => (d + 1 <= s_depth s)%Z) l -> at_depth d l = [].
Proof.
  unfold at_depth. induction 1 as [| s l Hs _ IH]; simpl; [reflexivity |].
  destruct (Z.eqb_spec (s_depth s) d); [lia | exact IH].
Qed.

Lemma chained_start (a a' b : Q) (kids : list slice) :
  a == a' -> chained gap_rad a b kids -> chained gap_rad a' b kids.
Proof.
  intros Ha. destruct kids as [| s kids]; simpl.
  - intros H. rewrite <- Ha. exact H.
  - intros [H1 H2]. split; [rewrite <- Ha; exact H1 | exact H2].
Qed.

Lemma chained_end (kids : list slice) :
  forall a b b', b == b' -> chained gap_rad a b kids -> chained gap_rad a b' kids.
Proof.
  induction kids as [| s kids IH]; intros a b b' Hb; simpl.
  - intros H. rewrite H. exact Hb.
  - intros [H1 H2]. split; [exact H1 | eapply IH; eassumption].
Qed.

Lemma chained_sum (kids : list slice) :
  forall a b,
    chained gap_rad a b kids ->
    sumQ (map (pre_gap_span gap_rad) kids) == b - a.
Proof.
  induction kids as [| s kids IH]; intros a b H; simpl in H.
  - simpl. rewrite sumQ_nil, H. ring.
  - destruct H as [H1 H2]. simpl. rewrite sumQ_cons, (IH _ _ H2).
    unfold pre_gap_span. rewrite H1. field.
Qed.

Lemma children_rel_kids (d : Z) (i total span : Q) (chs : list node) :
  forall a news,
    children_rel (child_wedge ring_thick gap_rad d i) total span chs a news ->
    Forall2 (fun ch s => s_label s = label ch /\
                         pre_gap_span gap_rad s ==
                         span * frac_of total (value ch))
      chs (at_depth d (concat news)) /\
    chained gap_rad a
      (a + sumQ (map (fun ch => span * frac_of total (value ch)) chs))
      (at_depth d (concat news)).
Proof.
  induction chs as [| ch chs IH]; intros a [| new news] Hrel;
    simpl in Hrel; try contradiction.
  - simpl. split; [constructor |]. rewrite sumQ_nil. ring.
  - destruct Hrel as [(rest & -> & Hrest) Hrel].
    destruct (IH _ _ Hrel) as [Hspans Hchain].
    assert (Hkids : at_depth d
                      (concat
                         ((mkSlice i (i + ring_thick) (a + gap_rad / 2)
                             (a + span * frac_of total (value ch) - gap_rad / 2)
                             (label ch) d (value ch) :: rest) :: news)) =
                    mkSlice i (i + ring_thick) (a + gap_rad / 2)
                      (a + span * frac_of total (value ch) - gap_rad / 2)
                      (label ch) d (value ch)
                      :: at_depth d (concat news)).
    { unfold at_depth. cbn [concat app List.filter s_depth].
      rewrite Z.eqb_refl. f_equal. rewrite List.filter_app.
      fold (at_depth d rest). rewrite (at_depth_deeper _ _ Hrest).
      reflexivity. }
    rewrite Hkids. split.
    + constructor; [| exact Hspans]. split; [reflexivity |].
      unfold pre_gap_span; simpl. field.
    + cbn [chained theta1 theta2 map]. split; [reflexivity |].
      eapply chained_start; [| eapply chained_end; [| exact Hchain]].
      * field.
      * rewrite sumQ_cons. ring.
Qed.

End Shares.

Lemma sum_shares (total span : Q) (chs : list node) :
  ~ total == 0 ->
  sumQ (map (fun ch => span * (value ch / total)) chs) ==
  span * (sumQ (map value chs) / total).
Proof.
  intros Ht. induction chs as [| ch chs IH]; simpl.
  - rewrite !sumQ_nil. field. exact Ht.
  - rewrite !sumQ_cons, IH. field. exact Ht.
Qed.

(** Sunburst: the children share the span of their parent.  When the
    values of a node's children add up to a positive total, the wedges
    one level below the node are those of its children in order; the
    wedge of a child has the pre-gap span [span * value / total], the
    wedges follow one another from the node's start angle to its end
    angle, and their pre-gap spans add up to the node's span. *)
Theorem sunburst_children_share_span (lbl : string) (val i : Q)
    (chs : list node) (start span : Q) (depth : Z) (ring_thick gap_rad : Q)
    (max_depth : option Z) :
  chs <> [] -> 0 < sumQ (map value chs) ->
  too_deep max_depth (depth + 1) = false ->
  exists nd' own rest,
    _layout (mkNode lbl val (Some i) (Some chs)) start span depth
      ring_thick gap_rad max_depth [] = Ok (nd', own :: rest) /\
    Forall2 (fun ch s => s_label s = label ch /\
                         pre_gap_span gap_rad s ==
                         span * (value ch / sumQ (map value chs)))
      chs (at_depth (depth + 1) rest) /\
    chained gap_rad start (start + span) (at_depth (depth + 1) rest) /\
    sumQ (map (pre_gap_span gap_rad) (at_depth (depth + 1) rest)) == span.
Proof.
  intros Hne Htot Hdeep1.
  assert (Hdeep : too_deep max_depth depth = false).
  { destruct max_depth as [d |]; [| reflexivity]. simpl in *.
    apply Z.ltb_ge in Hdeep1. apply Z.ltb_ge. lia. }
  assert (Hfrac : forall v, frac_of (sumQ (map value chs)) v
                            = v / sumQ (map value chs)).
  { intros v. unfold frac_of.
    rewrite (proj2 (Qlt_bool_iff _ _) Htot). reflexivity. }
  destruct chs as [| c chs]; [congruence |].
  unfold _layout. cbn [layout_at inner label value children]. rewrite Hdeep.
  match goal with
  | |- context [layout_children ?f ?t ?sp ?l ?a0 ?s0] =>
      assert (Hall : Forall (fun ch => forall a w sl,
                               exists r, f ch a w sl = Ok r) l)
        by (apply Forall_forall; intros ch _ a1 w1 sl1; apply layout_at_ok);
      destruct (layout_children_ok f t sp l Hall a0 s0) as [[chs' sl2] Hloop]
  end.
  rewrite Hloop. cbn [mbind result_bind].
  apply (layout_children_rel _
           (child_wedge ring_thick gap_rad (depth + 1) (i + ring_thick)))
    in Hloop.
  - destruct Hloop as (news & -> & Hrel).
    apply children_rel_kids in Hrel. destruct Hrel as [Hspans Hchain].
    eexists _, _, (concat news). split; [reflexivity |].
    assert (Hend : start +
                   sumQ (map (fun ch => span *
                                frac_of (sumQ (map value (c :: chs))) (value ch))
                           (c :: chs)) == start + span).
    { rewrite (map_ext _ (fun ch => span *
                            (value ch / sumQ (map value (c :: chs)))))
        by (intros ch; rewrite Hfrac; reflexivity).
      rewrite sum_shares by lra. field. lra. }
    split_and!.
    + eapply Forall2_impl; [exact Hspans |]. intros ch s [Hl Hs].
      split; [exact Hl |]. rewrite Hs, Hfrac. reflexivity.
    + eapply chained_end; [exact Hend | exact Hchain].
    + rewrite (chained_sum _ _ _ _ Hchain), Hend. ring.
  - apply Forall_forall. intros ch _ a1 w1 sl ch' sl' Hc.
    destruct (layout_at_shape _ _ _ _ _ _ _ _ _ _ _ Hdeep1 Hc)
      as (rest & -> & Hrest).
    eexists. split; [reflexivity |]. exists rest. split; [reflexivity |].
    exact Hrest.
Qed.

Lemma sunburst_children_share_span_witness :
  [mkNode "a" 1 None None; mkNode "b" 3 None None] <> [] /\
  0 < sumQ (map value [mkNode "a" 1 None None; mkNode "b" 3 None None]) /\
  too_deep None (0 + 1) = false /\
  exists nd' own rest,
    _layout (mkNode "r" 4 (Some 0.38)
               (Some [mkNode "a" 1 None None; mkNode "b" 3 None None]))
      0 1 0 0.18 0.1 None [] = Ok (nd', own :: rest) /\
    Forall2 (fun ch s => s_label s = label ch /\
                         pre_gap_span 0.1 s ==
                         1 * (value ch /
                              sumQ (map value [mkNode "a" 1 None None;
                                               mkNode "b" 3 None None])))
      [mkNode "a" 1 None None; mkNode "b" 3 None None]
      (at_depth (0 + 1) rest) /\
    chained 0.1 0 (0 + 1) (at_depth (0 + 1) rest) /\
    sumQ (map (pre_gap_span 0.1) (at_depth (0 + 1) rest)) == 1.
Proof.
  assert (H1 : [mkNode "a" 1 None None; mkNode "b" 3 None None] <> [])
    by discriminate.
  assert (H2 : 0 < sumQ (map value [mkNode "a" 1 None None;
                                   mkNode "b" 3 None None]))
    by reflexivity.
  split; [exact H1 |]. split; [exact H2 |]. split; [reflexivity |].
  exact (sunburst_children_share_span "r" 4 0.38 _ 0 1 0 0.18 0.1 None
           H1 H2 eq_refl).
Defined.

End SunburstFacts.

(** ** Funnel widths *)
Section FunnelFacts.
Import Funnel.
Lemma clip_clamp (x x' lo hi : Q) :
  lo <= hi -> x == x' -> Qmin (Qmax x lo) hi == clamp x' lo hi.
Proof.
  intros Hlh Hx. unfold clamp.
  destruct (Qlt_bool x' lo) eqn:E1.
  - apply Qlt_bool_iff in E1.
    rewrite (Q.max_r x lo) by lra. apply Q.min_l. exact Hlh.
  - assert (H1 : lo <= x').
    { destruct (Qlt_le_dec x' lo) as [Hlt | Hle]; [| exact Hle].
      apply Qlt_bool_iff in Hlt. congruence. }
    rewrite (Q.max_l x lo) by lra.
    destruct (Qlt_bool hi x') eqn:E2.
    + apply Qlt_bool_iff in E2. apply Q.min_r. lra.
    + assert (H2 : x' <= hi).
      { destruct (Qlt_le_dec hi x') as [Hlt | Hle]; [| exact Hle].
        apply Qlt_bool_iff in Hlt. congruence. }
      rewrite Q.min_l by lra. exact Hx.
Qed.

Lemma clamp_bounds (x lo hi : Q) : lo <= hi -> lo <= clamp x lo hi <= hi.
Proof.
  intros Hlh. unfold clamp.
  destruct (Qlt_bool x lo) eqn:E1; [lra |].
  destruct (Qlt_bool hi x) eqn:E2; [lra |].
  split.
  - destruct (Qlt_le_dec x lo) as [Hlt | Hle]; [| exact Hle].
    apply Qlt_bool_iff in Hlt. congruence.
  - destruct (Qlt_le_dec hi x) as [Hlt | Hle]; [| exact Hle].
    apply Qlt_bool_iff in Hlt. congruence.
Qed.

Lemma fold_np_maximum_Fin (rest : list Q) (a : Q) :
  fold_left np_maximum (map Fin rest) (Fin a) = Fin (fold_left Qmax rest a).
Proof.
  revert a. induction rest as [| b rest IH]; intros a; simpl;
    [reflexivity | apply IH].
Qed.

(** The base of a sequence of finite values. *)
Lemma funnel_base (vs : list Q) (normalize : bool) (base : Q) :
  (normalize = true -> head vs = Some base) ->
  (normalize = false -> vs <> [] /\ is_max vs base) ->
  exists b,
    b == base /\
    (if normalize
     then match map Fin vs with
          | [] => Raise IndexError
          | v :: _ => Ok v
          end
     else np_max (map Fin vs)) = Ok (Fin b) /\
    vs <> [].
Proof.
  intros Hfirst Hmax. destruct normalize.
  - specialize (Hfirst eq_refl). destruct vs as [| v vs]; [discriminate |].
    simpl in Hfirst. inversion Hfirst; subst.
    exists base. split_and!; [reflexivity | reflexivity | discriminate].
  - destruct (Hmax eq_refl) as [Hne Hm].
    destruct vs as [| v vs]; [congruence |].
    exists (list_max (v :: vs)). split_and!; [| | exact Hne].
    + apply list_max_is_max; assumption.
    + simpl. rewrite fold_np_maximum_Fin. reflexivity.
Qed.

Lemma width_clamped (v b base : Q) :
  b == base -> ~ base == 0 ->
  np_eq (np_clip (np_div (Fin v) (Fin b)) 0.02 1.0)
        (Fin (clamp (v / base) 0.02 1.0)).
Proof.
  intros Hb Hnz. unfold np_div.
  destruct (Qeq_bool b 0) eqn:E.
  - apply Qeq_bool_iff in E. rewrite E in Hb. symmetry in Hb. contradiction.
  - unfold np_clip; simpl. apply clip_clamp; [discriminate |].
    rewrite Hb. reflexivity.
Qed.

Lemma np_clip_clamp (x : npfloat) (lo hi : Q) :
  lo <= hi -> np_eq (np_clip x lo hi) (np_clamp x lo hi).
Proof.
  intros Hlh. destruct x as [| | | q]; unfold np_clip, np_clamp; simpl.
  - exact I.
  - destruct (Qlt_bool hi lo) eqn:E; [apply Qlt_bool_iff in E; lra |].
    unfold np_eq. reflexivity.
  - unfold np_eq. apply Q.min_l. exact Hlh.
  - pose proof (clip_clamp q q lo hi Hlh (Qeq_refl q)) as H. unfold clamp in H.
    destruct (Qlt_bool q lo); [exact H |].
    destruct (Qlt_bool hi q); exact H.
Qed.

(** C6.  For every non-empty sequence of stage values [build] returns
    for each stage the width [clamp(value / base, 0.02, 1.0)], where the
    base is the first value under [normalize] and the greatest value
    otherwise.  This holds on doubles as numpy computes them, and in
    particular for finite values whose base is not zero (so for every
    sequence of positive values) with the quotient and the clamp of
    rationals; for [100, 80, 50, 20] the widths are
    [1.0, 0.8, 0.5, 0.2] under either setting. *)
Theorem funnel_widths_clamped :
  (forall (vals : list npfloat) (normalize : bool),
      vals <> [] ->
      exists base ws,
        (if normalize then head vals = Some base
         else np_max vals = Ok base) /\
        build vals normalize = Ok ws /\
        Forall2 (fun v w => np_eq w (np_clamp (np_div v base) 0.02 1.0))
          vals ws) /\
  (forall (vs : list Q) (normalize : bool) (base : Q),
      (normalize = true -> head vs = Some base) ->
      (normalize = false -> vs <> [] /\ is_max vs base) ->
      ~ base == 0 ->
      exists ws,
        build (map Fin vs) normalize = Ok ws /\
        Forall2 (fun v w => np_eq w (Fin (clamp (v / base) 0.02 1.0))) vs ws) /\
  (forall normalize : bool,
      exists ws,
        build [Fin 100; Fin 80; Fin 50; Fin 20] normalize = Ok ws /\
        Forall2 np_eq ws [Fin 1; Fin 0.8; Fin 0.5; Fin 0.2]).
Proof.
  split; [| split].
  - intros vals normalize Hne. destruct vals as [| v0 vals]; [congruence |].
    set (base := if normalize then v0 else fold_left np_maximum vals v0).
    exists base, (map (fun v => np_clip (np_div v base) 0.02 1.0) (v0 :: vals)).
    split_and!.
    + unfold base. destruct normalize; reflexivity.
    + unfold build, validate_funnel, widths.
      replace (bool_decide (v0 :: vals = [])) with false
        by (symmetry; apply bool_decide_eq_false; discriminate).
      cbn [negb require mbind result_bind np_max].
      unfold base. destruct normalize; cbn [mbind result_bind]; reflexivity.
    + apply Forall2_fmap_r. apply Forall_Forall2_diag.
      apply Forall_forall. intros v _.
      apply np_clip_clamp. discriminate.
  - intros vs normalize base Hfirst Hmax Hnz.
    destruct (funnel_base vs normalize base Hfirst Hmax) as (b & Hb & Hbase & Hne).
    exists (map (fun v => np_clip (np_div v (Fin b)) 0.02 1.0) (map Fin vs)).
    split.
    + unfold build, validate_funnel, widths.
      destruct vs as [| v vs]; [congruence |].
      cbn [map bool_decide negb require mbind result_bind].
      replace (bool_decide (Fin v :: map Fin vs = [])) with false
        by (symmetry; apply bool_decide_eq_false; discriminate).
      cbn [negb require mbind result_bind]. cbn [map] in Hbase.
      rewrite Hbase. reflexivity.
    + rewrite map_map. apply Forall2_fmap_r.
      apply Forall_Forall2_diag. apply Forall_forall. intros v _.
      apply width_clamped; assumption.
  - intros normalize. eexists. split.
    + destruct normalize; vm_compute; reflexivity.
    + repeat constructor.
Qed.

(** The scenario of C6 as an instance: the values [100, 80, 50, 20]
    with the first value as the base. *)
Lemma funnel_widths_clamped_witness :
  head [100; 80; 50; 20] = Some 100 /\
  ~ 100 == 0 /\
  exists ws,
    build (map Fin [100; 80; 50; 20]) true = Ok ws /\
    Forall2 (fun v w => np_eq w (Fin (clamp (v / 100) 0.02 1.0)))
      [100; 80; 50; 20] ws.
Proof.
  split; [reflexivity |]. split; [discriminate |].
  apply (proj1 (proj2 funnel_widths_clamped) [100; 80; 50; 20] true 100).
  - intros _. reflexivity.
  - discriminate.
  - discriminate.
Defined.

(** With finite values and a base that is not zero every width lies
    between 0.02 and 1. *)
Lemma funnel_widths_in_range (vs : list Q) (normalize : bool) (base : Q) :
  (normalize = true -> head vs = Some base) ->
  (normalize = false -> vs <> [] /\ is_max vs base) ->
  ~ base == 0 ->
  exists ws, build (map Fin vs) normalize = Ok ws /\ Forall in_range ws.
Proof.
  intros Hfirst Hmax Hnz.
  destruct (funnel_base vs normalize base Hfirst Hmax) as (b & Hb & Hbase & Hne).
  exists (map (fun v => np_clip (np_div v (Fin b)) 0.02 1.0) (map Fin vs)).
  split.
  - unfold build, validate_funnel, widths.
    destruct vs as [| v vs]; [congruence |].
    cbn [map bool_decide negb require mbind result_bind].
    replace (bool_decide (Fin v :: map Fin vs = [])) with false
      by (symmetry; apply bool_decide_eq_false; discriminate).
    cbn [negb require mbind result_bind]. cbn [map] in Hbase.
    rewrite Hbase. reflexivity.
  - rewrite map_map. apply Forall_map. apply Forall_forall. intros v _.
    pose proof (width_clamped v b base Hb Hnz) as Hw.
    pose proof (clamp_bounds (v / base) 0.02 1.0 ltac:(discriminate)) as Hc.
    cbv beta. destruct (np_clip (np_div (Fin v) (Fin b)) 0.02 1.0) as [| | | q];
      unfold np_eq in Hw; try contradiction.
    unfold in_range. rewrite Hw. split; [apply Hc |]. destruct Hc as [_ Hc].
    eapply Qle_trans; [exact Hc | discriminate].
Qed.

(** C10.  A first stage of value 0 under [normalize] divides 0 by 0:
    whatever the other stages are, the validator accepts the input and
    the width of the first stage is NaN, which is not in the interval
    from 0.02 to 1. *)
Theorem funnel_zero_base_width_nan (rest : list npfloat) :
  exists ws,
    build (Fin 0 :: rest) true = Ok (NaN :: ws) /\ ~ in_range NaN.
Proof.
  eexists. split; [| intros H; exact H].
  unfold build, validate_funnel, widths.
  replace (bool_decide (Fin 0 :: rest = [])) with false
    by (symmetry; apply bool_decide_eq_false; discriminate).
  cbn [negb require mbind result_bind map]. reflexivity.
Qed.

End FunnelFacts.
